(** * ConfigInstance: the reactive configuration store of [extension-dl/src/config.ts]

    A shallow embedding of the class [ConfigInstance] and of the three
    synchronisation handlers it installs (the [chrome.storage.onChanged]
    handler of the constructor and the interval callbacks of [syncConfig] and
    [syncConfigBackground]), followed by the properties of its
    change-propagation logic.

    Modelling conventions.
    - A [ConfigObject] is a plain JavaScript object used as a string-keyed
      map of primitives.  Its own properties are kept as an association list
      in the order in which [Object.keys] enumerates them (array-index keys
      first, in ascending order, then the other keys in creation order); the
      order is observable through the sequence of listener calls.  A read
      [obj[key]] that finds no own property falls back to the members that
      every plain object inherits from [Object.prototype].
    - The exported object [defaultConfig] is shared: [loadFromStorage] may
      make it the map of the instance, and [set] then writes into it.  The
      instance is therefore wrapped in a [Module] that tracks that object.
    - A JavaScript [number] is an IEEE-754 double, [spec_float]; [===] on
      numbers is [SFeqb], so [NaN !== NaN] and [+0 === -0].
    - Functions handed to the store (listeners and predicates) are opaque:
      a function object is represented by its identity, and calling it is
      recorded in a trace of [Call]s.  Callbacks are assumed to return
      normally and not to re-enter the store. *)

From Stdlib Require Import Floats.SpecFloat Strings.Ascii NArith.
From stdpp Require Import base option list strings gmap.

Open Scope string_scope.
Open Scope list_scope.

(** ** JavaScript values and strict equality *)

(** [type ConfigData = string | boolean | number] *)
Inductive ConfigData : Type :=
  | CString (s : string)
  | CBoolean (b : bool)
  | CNumber (n : spec_float).

(** The value of an own property of a [ConfigObject], if there is one:
    [None] stands for [undefined]. *)
Definition Value : Type := option ConfigData.

(** The own property names of [Object.prototype] (ECMAScript, Annex B
    included).  Every plain object, and so [this.config], [this.listeners]
    and every snapshot, inherits these members. *)
Definition Object_prototype_names : list string :=
  ["constructor"; "__defineGetter__"; "__defineSetter__"; "hasOwnProperty";
   "__lookupGetter__"; "__lookupSetter__"; "isPrototypeOf";
   "propertyIsEnumerable"; "toString"; "valueOf"; "__proto__";
   "toLocaleString"].

(** What a property read [obj[key]] on a plain object evaluates to:
    [undefined], a primitive, or the member of [Object.prototype] of that
    name (a function, or the prototype object itself for ["__proto__"]). *)
Inductive JSValue : Type :=
  | JSUndefined
  | JSData (d : ConfigData)
  | JSInherited (name : string).

#[global] Instance spec_float_eq_dec : EqDecision spec_float.
Proof. solve_decision. Defined.

#[global] Instance ConfigData_eq_dec : EqDecision ConfigData.
Proof. solve_decision. Defined.

#[global] Instance JSValue_eq_dec : EqDecision JSValue.
Proof. solve_decision. Defined.

(** The double nearest to an integer (exact for the small integers used in
    examples): binary64 has 53 bits of precision and [emax = 1024]. *)
Definition number_of_Z (z : Z) : spec_float :=
  binary_normalize 53 1024 z 0 false.

(** [a === b] on two primitives of type [ConfigData]. *)
Definition strict_eq_data (a b : ConfigData) : bool :=
  match a, b with
  | CString s, CString t => bool_decide (s = t)
  | CBoolean x, CBoolean y => bool_decide (x = y)
  | CNumber x, CNumber y => SFeqb x y
  | _, _ => false
  end.

(** [a === b] on values that may be [undefined]. *)
Definition strict_eq (a b : Value) : bool :=
  match a, b with
  | None, None => true
  | Some x, Some y => strict_eq_data x y
  | _, _ => false
  end.

(** [a !== b] *)
Definition strict_neq (a b : Value) : bool := negb (strict_eq a b).

(** [a === b] on the results of two property reads: two inherited members
    are the same object exactly when they have the same name, and an
    inherited member is never a primitive. *)
Definition js_strict_eq (a b : JSValue) : bool :=
  match a, b with
  | JSUndefined, JSUndefined => true
  | JSData x, JSData y => strict_eq_data x y
  | JSInherited m, JSInherited n => bool_decide (m = n)
  | _, _ => false
  end.

(** ** Objects used as maps *)

(** [type ConfigObject = { [key: string]: ConfigData }] *)
Definition ConfigObject : Type := list (string * ConfigData).

(** [Object.keys(obj)] *)
Definition Object_keys (obj : ConfigObject) : list string := obj.*1.

(** The own property [key] of [obj]. *)
Fixpoint prop_get (obj : ConfigObject) (key : string) : Value :=
  match obj with
  | [] => None
  | (k, v) :: rest => if decide (k = key) then Some v else prop_get rest key
  end.

(** [obj[key]]: the own property, else the inherited member, else
    [undefined]. *)
Definition prop_read (obj : ConfigObject) (key : string) : JSValue :=
  match prop_get obj key with
  | Some v => JSData v
  | None =>
      if decide (key ∈ Object_prototype_names) then JSInherited key
      else JSUndefined
  end.

(** Array indices: the canonical decimal numerals of the integers from 0 to
    2^32 - 2.  These are the keys that [Object.keys] lists first. *)
Definition digit_of (a : ascii) : option N :=
  let n := N_of_ascii a in
  if ((48 <=? n) && (n <=? 57))%N then Some (n - 48)%N else None.

Fixpoint digits_value (s : string) (acc : N) : option N :=
  match s with
  | EmptyString => Some acc
  | String a rest =>
      match digit_of a with
      | Some d => digits_value rest (10 * acc + d)%N
      | None => None
      end
  end.

Definition array_index (key : string) : option N :=
  match key with
  | EmptyString => None
  | String a rest =>
      if bool_decide (a = "0"%char) && negb (bool_decide (rest = EmptyString))
      then None
      else match digits_value key 0 with
           | Some n => if (n <? 4294967295)%N then Some n else None
           | None => None
           end
  end.

(** Overwriting an own property keeps its place. *)
Fixpoint prop_overwrite (obj : ConfigObject) (key : string)
    (value : ConfigData) : ConfigObject :=
  match obj with
  | [] => []
  | (k, v) :: rest =>
      if decide (k = key) then (k, value) :: rest
      else (k, v) :: prop_overwrite rest key value
  end.

(** A new array-index key goes after the index keys that are not greater
    and before everything else. *)
Fixpoint prop_insert_index (obj : ConfigObject) (n : N) (key : string)
    (value : ConfigData) : ConfigObject :=
  match obj with
  | [] => [(key, value)]
  | (k, v) :: rest =>
      match array_index k with
      | Some m =>
          if (n <? m)%N then (key, value) :: (k, v) :: rest
          else (k, v) :: prop_insert_index rest n key value
      | None => (key, value) :: (k, v) :: rest
      end
  end.

(** [obj[key] = value] for a primitive [value]: an own property is
    overwritten in place; otherwise the assignment to ["__proto__"] reaches
    the inherited setter, which ignores primitives; otherwise a property is
    created, at its place among the array indices or last. *)
Definition prop_set (obj : ConfigObject) (key : string) (value : ConfigData)
  : ConfigObject :=
  if decide (key ∈ Object_keys obj) then prop_overwrite obj key value
  else if decide (key = "__proto__") then obj
  else match array_index key with
       | Some n => prop_insert_index obj n key value
       | None => obj ++ [(key, value)]
       end.

(** [new Set(iterable)] followed by [Array.from]: elements in order of first
    insertion.  [Set_add_all seen l] adds the elements of [l] to a set whose
    insertion order so far is [seen]. *)
Fixpoint Set_add_all (seen l : list string) : list string :=
  match l with
  | [] => seen
  | x :: rest =>
      if decide (x ∈ seen) then Set_add_all seen rest
      else Set_add_all (seen ++ [x]) rest
  end.

Definition new_Set (l : list string) : list string := Set_add_all [] l.

(** The diff written out three times in the source (constructor, [syncConfig],
    [syncConfigBackground]):
<<
    const diff = new Set([...Object.keys(newConfig), ...Object.keys(oldConfig)]);
    const diffs = Array.from(diff).filter((key) => newConfig[key] !== oldConfig[key]);
>>
    Every key that is tested is an own key of one of the two objects, so the
    comparison is between own properties (lemma [diffs_reads]). *)
Definition diffs (newConfig oldConfig : ConfigObject) : list string :=
  filter (λ key, strict_neq (prop_get newConfig key) (prop_get oldConfig key))
         (new_Set (Object_keys newConfig ++ Object_keys oldConfig)).

(** ** The store *)

(** Function objects are compared by reference ([!==] in the [filter]
    callbacks of the remove methods); a function is represented by its
    identity. *)
Definition Listener : Type := nat.         (* (key, newData) => void *)
Definition AnyListener : Type := nat.      (* () => void *)
Definition CoditionListener : Type := nat. (* (changedKey: string[]) => boolean *)

(** The fields of [class ConfigInstance]. *)
Record ConfigInstance : Type := mkConfigInstance {
  config : ConfigObject;
  listeners : gmap string (list Listener);
  anyListeners : list AnyListener;
  conditionListeners : list (CoditionListener * AnyListener)
}.

(** Calls that leave the store, in the order they are made. *)
Inductive Call : Type :=
  | CallListener (l : Listener) (key : string) (newData : JSValue)
      (* [l(key, newData)] in [emit] *)
  | CallAnyListener (l : AnyListener)
      (* [l()] in [emitAny] *)
  | CallCondition (c : CoditionListener) (changes : list string)
      (* [c(changes)] in [emitCondition] *)
  | CallConditionListener (c : CoditionListener) (l : AnyListener)
      (* [l()] for the pair [[c, l]] in [emitCondition] *)
  | CallMain
      (* [main()] in [syncConfigBackground] *)
  | DispatchEvent (name : string).
      (* [window.dispatchEvent(new Event(name))] in [syncConfig] *)

#[global] Instance Call_eq_dec : EqDecision Call.
Proof. solve_decision. Defined.

Inductive JSError : Type := TypeError.

Inductive Completion (A : Type) : Type :=
  | Normal (a : A)
  | Throw (e : JSError).
Arguments Normal {A} a.
Arguments Throw {A} e.

(** A method body: it runs on the instance, may replace its fields, makes
    calls, and completes normally or abruptly. *)
Definition M (A : Type) : Type :=
  ConfigInstance → Completion A * ConfigInstance * list Call.

#[global] Instance M_ret : MRet M := λ A a this, (Normal a, this, []).

#[global] Instance M_bind : MBind M := λ A B f m this,
  match m this with
  | (Normal a, this', tr) =>
      let '(r, this'', tr') := f a this' in (r, this'', tr ++ tr')
  | (Throw e, this', tr) => (Throw e, this', tr)
  end.

Definition throw {A : Type} (e : JSError) : M A := λ this, (Throw e, this, []).

(** [try { body } catch (e) { handler }] *)
Definition try_catch {A : Type} (body : M A) (handler : JSError → M A) : M A :=
  λ this,
    match body this with
    | (Throw e, this', tr) =>
        let '(r, this'', tr') := handler e this' in (r, this'', tr ++ tr')
    | done => done
    end.

Definition call (c : Call) : M unit := λ this, (Normal (), this, [c]).

Definition read {A : Type} (field : ConfigInstance → A) : M A :=
  λ this, (Normal (field this), this, []).

Definition write (upd : ConfigInstance → ConfigInstance) : M unit :=
  λ this, (Normal (), upd this, []).

Definition with_config (cfg : ConfigObject) (this : ConfigInstance) :=
  mkConfigInstance cfg (listeners this) (anyListeners this)
                   (conditionListeners this).
Definition with_listeners (ls : gmap string (list Listener))
    (this : ConfigInstance) :=
  mkConfigInstance (config this) ls (anyListeners this)
                   (conditionListeners this).
Definition with_anyListeners (ls : list AnyListener) (this : ConfigInstance) :=
  mkConfigInstance (config this) (listeners this) ls (conditionListeners this).
Definition with_conditionListeners (ls : list (CoditionListener * AnyListener))
    (this : ConfigInstance) :=
  mkConfigInstance (config this) (listeners this) (anyListeners this) ls.

(** [array.forEach(f)] and [for (const x of array)] *)
Fixpoint forEach {A : Type} (l : list A) (f : A → M unit) : M unit :=
  match l with
  | [] => mret ()
  | x :: rest => f x ;; forEach rest f
  end.

(** *** Data access *)

(** [get(key, defaultValue?)]; an omitted default is [undefined]. *)
Definition get (key : string) (defaultValue : JSValue) : M JSValue :=
  try_catch
    (cfg ← read config;
     mret (match prop_read cfg key with
           | JSUndefined => defaultValue   (* typeof ... == "undefined" *)
           | v => v
           end))
    (λ e, mret defaultValue).

(** *** Listener registries *)

(** [this.listeners] is a plain object: [this.listeners[key]] is the own
    array, or else the inherited member of that name, or else [undefined].
    An inherited member is truthy and has no [push], [filter] or [forEach],
    so calling one of these on it throws a [TypeError]. *)
Definition addListener (key : string) (listener : Listener) : M unit :=
  ls ← read listeners;
  match ls !! key with
  | Some arr => write (with_listeners (<[key := arr ++ [listener]]> ls))
  | None =>
      if decide (key ∈ Object_prototype_names) then throw TypeError
      else write (with_listeners (<[key := [] ++ [listener]]> ls))
  end.

Definition removeListener (key : string) (listener : Listener) : M unit :=
  ls ← read listeners;
  match ls !! key with
  | Some arr =>
      write (with_listeners (<[key := filter (λ l, l ≠ listener) arr]> ls))
  | None =>
      if decide (key ∈ Object_prototype_names) then throw TypeError
      else mret ()
  end.

Definition emit (key : string) (newData : JSValue) : M unit :=
  ls ← read listeners;
  match ls !! key with
  | Some arr => forEach arr (λ l, call (CallListener l key newData))
  | None =>
      if decide (key ∈ Object_prototype_names) then throw TypeError
      else mret ()
  end.

Definition addAnyListener (listener : AnyListener) : M unit :=
  write (λ this, with_anyListeners (anyListeners this ++ [listener]) this).

Definition removeAnyListener (listener : AnyListener) : M unit :=
  write (λ this,
    with_anyListeners (filter (λ l, l ≠ listener) (anyListeners this)) this).

Definition addConditionListener (condition : CoditionListener)
    (listener : AnyListener) : M unit :=
  write (λ this,
    with_conditionListeners
      (conditionListeners this ++ [(condition, listener)]) this).

(** The source keeps a pair only when both components differ:
    [filter(([c, l]) => c !== condition && l !== listener)]. *)
Definition removeConditionListener (condition : CoditionListener)
    (listener : AnyListener) : M unit :=
  write (λ this,
    with_conditionListeners
      (filter (λ cl, cl.1 ≠ condition ∧ cl.2 ≠ listener)
              (conditionListeners this)) this).

Definition emitAny : M unit :=
  ls ← read anyListeners;
  forEach ls (λ l, call (CallAnyListener l)).

(** [set(key, value)] *)
Definition set (key : string) (value : ConfigData) : M unit :=
  write (λ this, with_config (prop_set (config this) key value) this);;
  emit key (JSData value);;
  emitAny.

(** [load(cfg)] *)
Definition load (cfg : ConfigObject) : M unit :=
  write (with_config cfg);;
  emitAny.

(** [loadAsT()] *)
Definition loadAsT : M ConfigObject := read config.


(** *** The module: the instance and the exported [defaultConfig] object

    [loadFromStorage] assigns the exported object [defaultConfig] itself to
    [this.config] when storage holds no map, and [set] writes into whatever
    object [this.config] is.  The module state therefore records the
    current own properties of [defaultConfig] and whether [this.config] is
    that very object. *)








(** An entry of the [changes] object passed by [chrome.storage.onChanged];
    either side is [undefined] when the item did not exist. *)
Record StorageChange : Type := mkStorageChange {
  oldValue : option ConfigObject;
  newValue : option ConfigObject
}.

(** Observations on a run. *)
Definition completion {A : Type} (r : Completion A * ConfigInstance * list Call)
  : Completion A := r.1.1.
Definition final {A : Type} (r : Completion A * ConfigInstance * list Call)
  : ConfigInstance := r.1.2.
Definition calls {A : Type} (r : Completion A * ConfigInstance * list Call)
  : list Call := r.2.

(** ** Example data *)

Definition ex_old : ConfigObject :=
  [("a", CNumber (number_of_Z 1)); ("b", CNumber (number_of_Z 2))].
Definition ex_new : ConfigObject :=
  [("a", CNumber (number_of_Z 1)); ("b", CNumber (number_of_Z 3));
   ("c", CNumber (number_of_Z 4))].

(** A store holding [{a: true}], with KeyListeners 1 and 2 on ["x"] and 5 on
    ["a"], AnyListeners 7 and 8, and the ConditionalListeners [[10, 11]] and
    [[12, 13]]. *)
Definition ex_this : ConfigInstance :=
  mkConfigInstance [("a", CBoolean true)]
                   {[ "x" := [1; 2]; "a" := [5] ]}
                   [7; 8]
                   [(10, 11); (12, 13)].

(** Predicate 10 accepts every batch, every other predicate rejects it. *)
Definition ex_condition (c : CoditionListener) (changes : list string) : bool :=
  bool_decide (c = 10).

(** A snapshot that differs from the map of [ex_this] on ["x"] and ["a"]. *)
Definition ex_fetched : ConfigObject := [("x", CBoolean false)].

(** A store whose ConditionalListeners share predicates and callbacks. *)
Definition ex_shared : ConfigInstance :=
  mkConfigInstance [] ∅ [] [(10, 11); (12, 11); (10, 13)].

(** Two maps with the keys in a different order, one key removed and one
    added. *)
Definition ex_before : ConfigObject :=
  [("p", CBoolean true); ("q", CString "old"); ("r", CBoolean false)].
Definition ex_after : ConfigObject :=
  [("s", CBoolean true); ("r", CBoolean true); ("p", CBoolean true)].

(** A store holding [ex_before], with KeyListeners 3 on ["r"], 4 on ["q"]
    and 5 and 6 on ["s"]. *)
Definition ex_ordered : ConfigInstance :=
  mkConfigInstance ex_before {[ "r" := [3]; "q" := [4]; "s" := [5; 6] ]}
                   [] [].

(** A map with an array-index key, which [Object.keys] lists first. *)
Definition ex_indexed : ConfigObject :=
  [("1", CBoolean true); ("b", CBoolean true)].

(** ** Vocabulary for the properties *)

(** No value of the map is [NaN]. *)
Definition NaN_free (obj : ConfigObject) : Prop :=
  ∀ key, prop_get obj key ≠ Some (CNumber S754_nan).

(** The calls [emit(key, newData)] makes with the registry [ls]. *)
Definition listener_calls (ls : gmap string (list Listener)) (key : string)
    (newData : JSValue) : list Call :=
  (λ l, CallListener l key newData) <$> default [] (ls !! key).

(** [emit(key, ...)] with the registry [ls] throws: [ls[key]] is an
    inherited member. *)
Definition emit_throws (ls : gmap string (list Listener)) (key : string)
  : Prop :=
  ls !! key = None ∧ key ∈ Object_prototype_names.

#[global] Instance emit_throws_dec ls key : Decision (emit_throws ls key).
Proof. unfold emit_throws. apply _. Defined.

(** The calls of the loop [for (const key of keys) this.emit(key, f(key))]
    with the registry [ls]: it stops at the first key on which [emit]
    throws. *)
Fixpoint emit_each_calls (ls : gmap string (list Listener))
    (keys : list string) (f : string → JSValue) : list Call :=
  match keys with
  | [] => []
  | key :: rest =>
      if decide (emit_throws ls key) then []
      else listener_calls ls key (f key) ++ emit_each_calls ls rest f
  end.

(** Classes of calls. *)
Definition is_listener_call (c : Call) : Prop :=
  match c with CallListener _ _ _ => True | _ => False end.
Definition is_listener_call_for (key : string) (c : Call) : Prop :=
  match c with CallListener _ k _ => k = key | _ => False end.
Definition is_any_call (c : Call) : Prop :=
  match c with CallAnyListener _ => True | _ => False end.
Definition is_condition_call (c : Call) : Prop :=
  match c with
  | CallCondition _ _ | CallConditionListener _ _ => True
  | _ => False
  end.

#[global] Instance is_listener_call_dec c : Decision (is_listener_call c).
Proof. destruct c; simpl; apply _. Defined.
#[global] Instance is_listener_call_for_dec key c :
  Decision (is_listener_call_for key c).
Proof. destruct c; simpl; apply _. Defined.
#[global] Instance is_any_call_dec c : Decision (is_any_call c).
Proof. destruct c; simpl; apply _. Defined.
#[global] Instance is_condition_call_dec c : Decision (is_condition_call c).
Proof. destruct c; simpl; apply _. Defined.

(** Two classes of calls exclude or include each other by their
    constructors. *)
Ltac class_cases :=
  intros []; simpl;
  first [ by intros [] | by intros ? [] | done ].

(** How many times [x] occurs in [l]. *)
Definition times {A : Type} `{EqDecision A} (x : A) (l : list A) : nat :=
  length (filter (λ y, y = x) l).

(** In the trace [tr], every call of class [P] is made before every call of
    class [Q]. *)
Definition precedes (P Q : Call → Prop) (tr : list Call) : Prop :=
  ∀ i j a b, tr !! i = Some a → tr !! j = Some b → P a → Q b → i < j.

Section Handlers.

(** What each predicate function answers on a batch of changed keys. *)
Variable apply_condition : CoditionListener → list string → bool.

Definition emitCondition (changes : list string) : M unit :=
  ls ← read conditionListeners;
  forEach ls (λ cl,
    call (CallCondition cl.1 changes);;
    if apply_condition cl.1 changes
    then call (CallConditionListener cl.1 cl.2)
    else mret ()).

(** The body of the [if (key == "config")] branch in the constructor's
    [chrome.storage.onChanged] handler.  [Object.keys(undefined)] throws. *)
Definition onChanged_config (changes : gmap string StorageChange) : M unit :=
  match changes !! "config" with
  | None => throw TypeError
  | Some change =>
      match newValue change with
      | None => throw TypeError
      | Some newConfig =>
          oldConfig ← read config;
          let diffs := diffs newConfig oldConfig in
          forEach diffs (λ key, emit key (prop_read newConfig key));;
          write (with_config newConfig);;
          emitAny;;
          emitCondition diffs
      end
  end.

(** [chrome.storage.onChanged.addListener((changes) => { for (const key in
    changes) { if (key == "config") { ... } } })].  [changes] is an object
    keyed by storage item; the loop visits each of its keys once. *)
Definition onChanged (changes : gmap string StorageChange) : M unit :=
  forEach (map_to_list changes).*1 (λ key,
    if decide (key = "config") then onChanged_config changes else mret ()).

(** One tick of the interval of [syncConfig], from the point where the fetch
    has resolved to [fetched].  The assignment [window.chzzkExt.config =
    config] touches no field of the instance and is not a call. *)
Definition syncConfig_tick (fetched : ConfigObject) : M unit :=
  current ← read config;
  let diffs := diffs fetched current in
  if decide (length diffs = 0) then mret ()
  else
    emitCondition diffs;;
    load fetched;;
    call (DispatchEvent "chzzkExtConfig").

(** One tick of the interval of [syncConfigBackground(main)]. *)
Definition syncConfigBackground_tick (fetched : ConfigObject) : M unit :=
  current ← read config;
  let diffs := diffs fetched current in
  if decide (length diffs = 0) then mret ()
  else
    emitCondition diffs;;
    load fetched;;
    call CallMain.

(** The calls [emitCondition(changes)] makes with the registry [ls]. *)
Definition condition_calls (changes : list string)
    (ls : list (CoditionListener * AnyListener)) : list Call :=
  ls ≫= λ cl,
    CallCondition cl.1 changes ::
    (if apply_condition cl.1 changes
     then [CallConditionListener cl.1 cl.2] else []).

(** * Properties *)

(** ** Strict equality *)

Lemma SFeqb_sym (x y : spec_float) : SFeqb x y = SFeqb y x.
Proof.
  unfold SFeqb, SFcompare.
  destruct x as [[]|[]| |[] m1 e1], y as [[]|[]| |[] m2 e2]; try reflexivity.
  all: change (Pos.compare_cont Eq m1 m2) with (Pos.compare m1 m2).
  all: change (Pos.compare_cont Eq m2 m1) with (Pos.compare m2 m1).
  all: rewrite (Z.compare_antisym e1 e2), (Pos.compare_antisym m1 m2).
  all: destruct (e1 ?= e2)%Z, (m1 ?= m2)%positive; reflexivity.
Qed.

Lemma strict_eq_data_sym (a b : ConfigData) :
  strict_eq_data a b = strict_eq_data b a.
Proof.
  destruct a, b; simpl; try reflexivity.
  - apply bool_decide_ext. split; congruence.
  - apply bool_decide_ext. split; congruence.
  - apply SFeqb_sym.
Qed.

Lemma strict_eq_sym (a b : Value) : strict_eq a b = strict_eq b a.
Proof. destruct a, b; simpl; auto using strict_eq_data_sym. Qed.

Lemma strict_neq_sym (a b : Value) : strict_neq a b = strict_neq b a.
Proof. unfold strict_neq. by rewrite strict_eq_sym. Qed.

(** [undefined] is strictly different from every primitive. *)
Lemma strict_neq_undefined_l (v : ConfigData) : strict_neq None (Some v) = true.
Proof. reflexivity. Qed.

Lemma strict_neq_undefined_r (v : ConfigData) : strict_neq (Some v) None = true.
Proof. reflexivity. Qed.

(** ** Property reads and writes *)

Lemma prop_get_None (obj : ConfigObject) (key : string) :
  prop_get obj key = None ↔ key ∉ Object_keys obj.
Proof.
  unfold Object_keys. induction obj as [|[k v] rest IH]; simpl.
  - split; [intros _; apply not_elem_of_nil | done].
  - rewrite not_elem_of_cons. case_decide as Hk; subst.
    + split; [done | intros [? _]; done].
    + rewrite IH. split; [intros ?; split; [congruence | done] | tauto].
Qed.

Lemma prop_get_is_Some (obj : ConfigObject) (key : string) :
  is_Some (prop_get obj key) ↔ key ∈ Object_keys obj.
Proof.
  rewrite <- not_eq_None_Some, prop_get_None.
  destruct (decide (key ∈ Object_keys obj)); tauto.
Qed.

Lemma prop_get_overwrite_eq (obj : ConfigObject) (key : string)
    (value : ConfigData) :
  key ∈ Object_keys obj →
  prop_get (prop_overwrite obj key value) key = Some value.
Proof.
  unfold Object_keys. induction obj as [|[k v] rest IH]; cbn.
  - by intros ?%elem_of_nil.
  - intros Hin. case_decide as Hk; cbn.
    + by rewrite decide_True.
    + rewrite decide_False by done. apply IH.
      apply elem_of_cons in Hin as [?|?]; [congruence | done].
Qed.

Lemma prop_get_overwrite_ne (obj : ConfigObject) (key key' : string)
    (value : ConfigData) :
  key ≠ key' →
  prop_get (prop_overwrite obj key value) key' = prop_get obj key'.
Proof.
  intros Hne. induction obj as [|[k v] rest IH]; cbn; [done|].
  case_decide as Hk; cbn.
  - subst. by rewrite !decide_False.
  - case_decide; [done | apply IH].
Qed.

Lemma prop_get_insert_index_eq (obj : ConfigObject) (n : N) (key : string)
    (value : ConfigData) :
  key ∉ Object_keys obj →
  prop_get (prop_insert_index obj n key value) key = Some value.
Proof.
  unfold Object_keys. induction obj as [|[k v] rest IH]; cbn.
  - intros _. by rewrite decide_True.
  - intros [Hk Hrest]%not_elem_of_cons.
    destruct (array_index k) as [m|]; [destruct (n <? m)%N|]; cbn.
    + by rewrite decide_True.
    + rewrite decide_False by done. by apply IH.
    + by rewrite decide_True.
Qed.

Lemma prop_get_insert_index_ne (obj : ConfigObject) (n : N)
    (key key' : string) (value : ConfigData) :
  key ≠ key' →
  prop_get (prop_insert_index obj n key value) key' = prop_get obj key'.
Proof.
  intros Hne. induction obj as [|[k v] rest IH]; cbn.
  - by rewrite decide_False.
  - destruct (array_index k) as [m|]; [destruct (n <? m)%N|]; cbn.
    + by rewrite (decide_False (P := key = key')).
    + case_decide; [done | apply IH].
    + by rewrite (decide_False (P := key = key')).
Qed.

Lemma prop_get_app (obj1 obj2 : ConfigObject) (key : string) :
  prop_get (obj1 ++ obj2) key
  = match prop_get obj1 key with
    | Some v => Some v
    | None => prop_get obj2 key
    end.
Proof.
  induction obj1 as [|[k v] rest IH]; cbn; [done|]. by case_decide.
Qed.

(** A write is read back, unless it was the ignored write to
    ["__proto__"]. *)
Lemma prop_get_set_eq (obj : ConfigObject) (key : string) (value : ConfigData) :
  key ∈ Object_keys obj ∨ key ≠ "__proto__" →
  prop_get (prop_set obj key value) key = Some value.
Proof.
  intros Hkey. unfold prop_set. case_decide as Hin.
  - by apply prop_get_overwrite_eq.
  - rewrite decide_False by tauto.
    destruct (array_index key) as [n|].
    + by apply prop_get_insert_index_eq.
    + rewrite prop_get_app. apply prop_get_None in Hin. rewrite Hin. cbn.
      by rewrite decide_True.
Qed.

Lemma prop_get_set_ne (obj : ConfigObject) (key key' : string)
    (value : ConfigData) :
  key ≠ key' → prop_get (prop_set obj key value) key' = prop_get obj key'.
Proof.
  intros Hne. unfold prop_set. case_decide as Hin.
  - by apply prop_get_overwrite_ne.
  - case_decide; [done|]. destruct (array_index key) as [n|].
    + by apply prop_get_insert_index_ne.
    + rewrite prop_get_app. cbn. rewrite decide_False by done.
      by destruct (prop_get obj key').
Qed.

(** Reads of the other keys are not affected by a write, inherited members
    included. *)
Lemma prop_read_set_ne (obj : ConfigObject) (key key' : string)
    (value : ConfigData) :
  key ≠ key' → prop_read (prop_set obj key value) key' = prop_read obj key'.
Proof. intros Hne. unfold prop_read. by rewrite prop_get_set_ne. Qed.

Lemma prop_read_own (obj : ConfigObject) (key : string) (v : ConfigData) :
  prop_get obj key = Some v → prop_read obj key = JSData v.
Proof. intros Hv. unfold prop_read. by rewrite Hv. Qed.

Lemma prop_read_absent (obj : ConfigObject) (key : string) :
  key ∉ Object_keys obj → key ∉ Object_prototype_names →
  prop_read obj key = JSUndefined.
Proof.
  intros Hk%prop_get_None Hn. unfold prop_read.
  by rewrite Hk, decide_False.
Qed.

Lemma prop_read_inherited (obj : ConfigObject) (key : string) :
  key ∉ Object_keys obj → key ∈ Object_prototype_names →
  prop_read obj key = JSInherited key.
Proof.
  intros Hk%prop_get_None Hn. unfold prop_read.
  by rewrite Hk, decide_True.
Qed.

(** ** The set built from the two key arrays *)

Lemma elem_of_Set_add_all (seen l : list string) (x : string) :
  x ∈ Set_add_all seen l ↔ x ∈ seen ∨ x ∈ l.
Proof.
  revert seen. induction l as [|y rest IH]; intros seen; simpl.
  - rewrite elem_of_nil. tauto.
  - case_decide as Hy; rewrite IH.
    + rewrite elem_of_cons. split; [tauto | intros [?|[->|?]]; tauto].
    + rewrite elem_of_app, list_elem_of_singleton, elem_of_cons. tauto.
Qed.

Lemma NoDup_Set_add_all (seen l : list string) :
  NoDup seen → NoDup (Set_add_all seen l).
Proof.
  revert seen. induction l as [|y rest IH]; intros seen Hseen; simpl; [done|].
  case_decide as Hy; apply IH; [done|].
  apply NoDup_app. split_and!; [done | | apply NoDup_singleton].
  intros x Hx ->%list_elem_of_singleton. done.
Qed.

Lemma elem_of_new_Set (l : list string) (x : string) : x ∈ new_Set l ↔ x ∈ l.
Proof. unfold new_Set. rewrite elem_of_Set_add_all, elem_of_nil. tauto. Qed.

Lemma NoDup_new_Set (l : list string) : NoDup (new_Set l).
Proof. apply NoDup_Set_add_all, NoDup_nil_2. Qed.

(** ** The diff *)

Lemma elem_of_diffs (newConfig oldConfig : ConfigObject) (key : string) :
  key ∈ diffs newConfig oldConfig ↔
    (key ∈ Object_keys newConfig ∨ key ∈ Object_keys oldConfig)
    ∧ strict_neq (prop_get newConfig key) (prop_get oldConfig key) = true.
Proof.
  unfold diffs.
  rewrite list_elem_of_filter, elem_of_new_Set, elem_of_app, Is_true_true.
  tauto.
Qed.

Lemma NoDup_diffs (newConfig oldConfig : ConfigObject) :
  NoDup (diffs newConfig oldConfig).
Proof. apply NoDup_filter, NoDup_new_Set. Qed.

(** C1. The batch computed by the diff is the union of the two key sets,
    filtered to the keys [k] with [newConfig[k] !== oldConfig[k]]: it has no
    repetition, as a set it is that filtered union, a key owned by exactly one
    of the two objects is in it, and for [old = {a:1, b:2}],
    [new = {a:1, b:3, c:4}] it is [b, c]. *)
Theorem diffs_filtered_union (newConfig oldConfig : ConfigObject) :
  let changed key :=
    strict_neq (prop_get newConfig key) (prop_get oldConfig key) in
  NoDup (diffs newConfig oldConfig)
  ∧ list_to_set (diffs newConfig oldConfig) =@{gset string}
      filter (λ key, changed key)
        (list_to_set (Object_keys newConfig)
           ∪ list_to_set (Object_keys oldConfig))
  ∧ (∀ key, key ∈ diffs newConfig oldConfig ↔
        (key ∈ Object_keys newConfig ∨ key ∈ Object_keys oldConfig)
        ∧ changed key = true)
  ∧ (∀ key,
        (key ∈ Object_keys newConfig ∧ (key ∉ Object_keys oldConfig))
        ∨ ((key ∉ Object_keys newConfig) ∧ key ∈ Object_keys oldConfig) →
        key ∈ diffs newConfig oldConfig)
  ∧ diffs ex_new ex_old = ["b"; "c"].
Proof.
  intros changed. split_and!.
  - apply NoDup_diffs.
  - apply set_eq. intros key.
    rewrite elem_of_list_to_set, elem_of_diffs, elem_of_filter, elem_of_union,
      !elem_of_list_to_set, Is_true_true.
    tauto.
  - intros key. apply elem_of_diffs.
  - intros key Hkey. apply elem_of_diffs. unfold strict_neq.
    destruct Hkey as [[Hn Ho]|[Hn Ho]].
    + apply prop_get_None in Ho.
      destruct (proj2 (prop_get_is_Some _ _) Hn) as [v Hv].
      rewrite Ho, Hv. auto.
    + apply prop_get_None in Hn.
      destruct (proj2 (prop_get_is_Some _ _) Ho) as [v Hv].
      rewrite Hn, Hv. auto.
  - vm_compute. reflexivity.
Qed.

(** C9. The diff is symmetric in its two arguments: both orders give the
    same set of keys (equal as finite sets, and the two arrays are
    permutations of each other). *)
Theorem diffs_symmetric (m1 m2 : ConfigObject) :
  list_to_set (diffs m1 m2) =@{gset string} list_to_set (diffs m2 m1)
  ∧ diffs m1 m2 ≡ₚ diffs m2 m1.
Proof.
  assert (∀ key, key ∈ diffs m1 m2 ↔ key ∈ diffs m2 m1) as Hiff.
  { intros key. rewrite !elem_of_diffs, (strict_neq_sym (prop_get m1 key)).
    tauto. }
  split.
  - apply set_eq. intros key. by rewrite !elem_of_list_to_set.
  - apply NoDup_Permutation; auto using NoDup_diffs.
Qed.

(** ** Running method bodies *)

Lemma bind_run {A B : Type} (m : M A) (f : A → M B) (this : ConfigInstance) :
  (m ≫= f) this =
    match m this with
    | (Normal a, this', tr) =>
        let '(r, this'', tr') := f a this' in (r, this'', tr ++ tr')
    | (Throw e, this', tr) => (Throw e, this', tr)
    end.
Proof. reflexivity. Qed.

Lemma forEach_calls {A : Type} (l : list A) (f : A → M unit)
    (g : A → list Call) (this : ConfigInstance) :
  (∀ x, f x this = (Normal (), this, g x)) →
  forEach l f this = (Normal (), this, l ≫= g).
Proof.
  intros Hf. induction l as [|x rest IH]; [done|].
  cbn [forEach]. rewrite bind_run, Hf, IH. done.
Qed.

Lemma forEach_call {A : Type} (l : list A) (f : A → Call)
    (this : ConfigInstance) :
  forEach l (λ x, call (f x)) this = (Normal (), this, f <$> l).
Proof.
  induction l as [|x rest IH]; [done|].
  cbn [forEach]. rewrite bind_run. cbn [call]. by rewrite IH.
Qed.

Lemma not_emit_throws (ls : gmap string (list Listener)) (key : string) :
  key ∉ Object_prototype_names → ¬ emit_throws ls key.
Proof. intros Hkey [_ Hin]. done. Qed.

Lemma Forall_not_emit_throws (ls : gmap string (list Listener))
    (keys : list string) :
  Forall (λ key, key ∉ Object_prototype_names) keys →
  Forall (λ key, ¬ emit_throws ls key) keys.
Proof.
  intros Hall. eapply Forall_impl; [exact Hall|].
  intros key. apply not_emit_throws.
Qed.

Lemma emit_run (key : string) (newData : JSValue) (this : ConfigInstance) :
  emit key newData this
  = if decide (emit_throws (listeners this) key)
    then (Throw TypeError, this, [])
    else (Normal (), this, listener_calls (listeners this) key newData).
Proof.
  unfold emit, listener_calls. rewrite bind_run. cbn [read].
  destruct (listeners this !! key) as [arr|] eqn:Hk;
    cbn [default from_option id].
  - rewrite decide_False by (intros [? _]; congruence).
    by rewrite forEach_call.
  - destruct (decide (key ∈ Object_prototype_names)) as [Hin|Hin].
    + by rewrite decide_True.
    + by rewrite decide_False by (intros [_ ?]; done).
Qed.

Lemma emit_each_calls_all (ls : gmap string (list Listener))
    (keys : list string) (f : string → JSValue) :
  Forall (λ key, ¬ emit_throws ls key) keys →
  emit_each_calls ls keys f = keys ≫= λ key, listener_calls ls key (f key).
Proof.
  induction 1 as [|key rest Hkey _ IH]; [done|].
  cbn [emit_each_calls]. by rewrite decide_False, IH, bind_cons.
Qed.

(** The loop of [emit]s stops at the first key whose registry lookup hits an
    inherited member. *)
Lemma forEach_emit_run (keys : list string) (f : string → JSValue)
    (this : ConfigInstance) :
  forEach keys (λ key, emit key (f key)) this
  = (if decide (Forall (λ key, ¬ emit_throws (listeners this) key) keys)
     then Normal () else Throw TypeError,
     this, emit_each_calls (listeners this) keys f).
Proof.
  induction keys as [|key rest IH].
  - by rewrite decide_True.
  - cbn [forEach emit_each_calls]. rewrite bind_run, emit_run.
    destruct (decide (emit_throws (listeners this) key)) as [Hthrow|Hok].
    + rewrite decide_False; [done|]. intros Hall.
      by apply Forall_cons in Hall as [? _].
    + rewrite IH.
      destruct (decide (Forall _ rest)) as [Hrest|Hrest].
      * by rewrite decide_True by (by apply Forall_cons).
      * rewrite decide_False; [done|]. intros Hall.
        by apply Forall_cons in Hall as [_ ?].
Qed.

Lemma emitAny_run (this : ConfigInstance) :
  emitAny this = (Normal (), this, CallAnyListener <$> anyListeners this).
Proof. unfold emitAny. rewrite bind_run. cbn [read]. by rewrite forEach_call. Qed.

Lemma emitCondition_run (changes : list string) (this : ConfigInstance) :
  emitCondition changes this
  = (Normal (), this, condition_calls changes (conditionListeners this)).
Proof.
  unfold emitCondition, condition_calls. rewrite bind_run. cbn [read].
  erewrite forEach_calls; [done|].
  intros [c l]. rewrite bind_run. cbn [call fst snd].
  by destruct (apply_condition c changes).
Qed.

(** [set] writes the property first; when [emit] throws, the write stays and
    no listener has been called. *)
Lemma set_run (key : string) (value : ConfigData) (this : ConfigInstance) :
  set key value this
  = if decide (emit_throws (listeners this) key)
    then (Throw TypeError,
          with_config (prop_set (config this) key value) this, [])
    else (Normal (), with_config (prop_set (config this) key value) this,
          listener_calls (listeners this) key (JSData value)
            ++ (CallAnyListener <$> anyListeners this)).
Proof.
  unfold set. rewrite bind_run. cbn [write].
  rewrite bind_run, emit_run. cbn [listeners with_config].
  case_decide; [done|]. by rewrite emitAny_run.
Qed.

Lemma set_final (key : string) (value : ConfigData) (this : ConfigInstance) :
  final (set key value this)
  = with_config (prop_set (config this) key value) this.
Proof. rewrite set_run. by case_decide. Qed.

Lemma load_run (cfg : ConfigObject) (this : ConfigInstance) :
  load cfg this
  = (Normal (), with_config cfg this, CallAnyListener <$> anyListeners this).
Proof. unfold load. rewrite bind_run. cbn [write]. by rewrite emitAny_run. Qed.

(** A cycle of the handler on a new map: the KeyListeners of the batch are
    called key by key; if no [emit] throws, the map is replaced and the
    AnyListeners and ConditionalListeners follow; otherwise the handler is
    left with the map not replaced. *)
Lemma onChanged_config_run (changes : gmap string StorageChange)
    (change : StorageChange) (newConfig : ConfigObject)
    (this : ConfigInstance) :
  changes !! "config" = Some change →
  newValue change = Some newConfig →
  onChanged_config changes this
  = if decide (Forall (λ key, ¬ emit_throws (listeners this) key)
                      (diffs newConfig (config this)))
    then (Normal (), with_config newConfig this,
          emit_each_calls (listeners this) (diffs newConfig (config this))
              (prop_read newConfig)
            ++ (CallAnyListener <$> anyListeners this)
            ++ condition_calls (diffs newConfig (config this))
                 (conditionListeners this))
    else (Throw TypeError, this,
          emit_each_calls (listeners this) (diffs newConfig (config this))
            (prop_read newConfig)).
Proof.
  intros Hc Hn. unfold onChanged_config. rewrite Hc, Hn, bind_run. cbn [read].
  rewrite bind_run, forEach_emit_run.
  case_decide; [|done].
  rewrite bind_run. cbn [write].
  rewrite bind_run, emitAny_run, emitCondition_run. cbn. reflexivity.
Qed.

(** A [for ... in] loop whose body acts on one key only runs that body at
    most once, whatever the enumeration order. *)
Lemma forEach_only (l : list string) (k0 : string) (body : M unit)
    (this : ConfigInstance) :
  NoDup l →
  forEach l (λ key, if decide (key = k0) then body else mret ()) this
  = if decide (k0 ∈ l) then body this else (Normal (), this, []).
Proof.
  intros Hnd. revert this.
  induction Hnd as [|x rest Hx Hnd IH]; intros this.
  - by rewrite decide_False by apply not_elem_of_nil.
  - cbn [forEach]. rewrite bind_run. destruct (decide (x = k0)) as [->|Hne].
    + rewrite (decide_True (P := k0 ∈ k0 :: rest)) by apply list_elem_of_here.
      destruct (body this) as [[[[]|e] this'] tr]; [|done].
      rewrite IH, decide_False by done. by rewrite app_nil_r.
    + cbn. rewrite IH.
      destruct (decide (k0 ∈ rest)) as [Hin|Hin].
      * rewrite decide_True by (by apply list_elem_of_further).
        by destruct (body this) as [[r this'] tr].
      * rewrite decide_False; [done|].
        rewrite not_elem_of_cons. split; [congruence | done].
Qed.

Lemma onChanged_run (changes : gmap string StorageChange)
    (this : ConfigInstance) :
  onChanged changes this
  = match changes !! "config" with
    | Some _ => onChanged_config changes this
    | None => (Normal (), this, [])
    end.
Proof.
  unfold onChanged. rewrite forEach_only by apply NoDup_fst_map_to_list.
  destruct (changes !! "config") as [change|] eqn:Hc.
  - rewrite decide_True; [done|].
    apply list_elem_of_fmap. exists ("config", change).
    split; [done | by apply elem_of_map_to_list].
  - rewrite decide_False; [done|].
    intros ([k change] & Hk & Hin)%list_elem_of_fmap. simpl in Hk. subst k.
    apply elem_of_map_to_list in Hin. congruence.
Qed.

Lemma syncConfig_tick_run (fetched : ConfigObject) (this : ConfigInstance) :
  syncConfig_tick fetched this
  = if decide (diffs fetched (config this) = []) then (Normal (), this, [])
    else (Normal (), with_config fetched this,
          condition_calls (diffs fetched (config this))
              (conditionListeners this)
            ++ (CallAnyListener <$> anyListeners this)
            ++ [DispatchEvent "chzzkExtConfig"]).
Proof.
  unfold syncConfig_tick. rewrite bind_run. cbn [read].
  destruct (diffs fetched (config this)) as [|key rest] eqn:Hd.
  - by rewrite !decide_True.
  - rewrite !decide_False by done.
    rewrite bind_run, emitCondition_run, bind_run, load_run. cbn. reflexivity.
Qed.

Lemma syncConfigBackground_tick_run (fetched : ConfigObject)
    (this : ConfigInstance) :
  syncConfigBackground_tick fetched this
  = if decide (diffs fetched (config this) = []) then (Normal (), this, [])
    else (Normal (), with_config fetched this,
          condition_calls (diffs fetched (config this))
              (conditionListeners this)
            ++ (CallAnyListener <$> anyListeners this)
            ++ [CallMain]).
Proof.
  unfold syncConfigBackground_tick. rewrite bind_run. cbn [read].
  destruct (diffs fetched (config this)) as [|key rest] eqn:Hd.
  - by rewrite !decide_True.
  - rewrite !decide_False by done.
    rewrite bind_run, emitCondition_run, bind_run, load_run. cbn. reflexivity.
Qed.

(** ** Classes of calls in a trace *)

Lemma filter_Forall_not {A : Type} (P : A → Prop) `{!∀ x, Decision (P x)}
    (l : list A) :
  Forall (λ x, ¬ P x) l → filter P l = [].
Proof.
  induction 1 as [|x rest Hx _ IH]; [done|]. by rewrite filter_cons_False.
Qed.

Lemma filter_Forall {A : Type} (P : A → Prop) `{!∀ x, Decision (P x)}
    (l : list A) :
  Forall P l → filter P l = l.
Proof.
  induction 1 as [|x rest Hx _ IH]; [done|].
  by rewrite filter_cons_True, IH.
Qed.

Lemma Forall_listener_calls (ls : gmap string (list Listener)) (key : string)
    (newData : JSValue) :
  Forall (is_listener_call_for key) (listener_calls ls key newData).
Proof. unfold listener_calls. apply Forall_fmap, Forall_true. done. Qed.

Lemma Forall_any_calls (ls : list AnyListener) :
  Forall is_any_call (CallAnyListener <$> ls).
Proof. apply Forall_fmap, Forall_true. done. Qed.

Lemma Forall_condition_calls (changes : list string)
    (ls : list (CoditionListener * AnyListener)) :
  Forall is_condition_call (condition_calls changes ls).
Proof.
  unfold condition_calls. apply Forall_bind, Forall_true. intros [c l].
  simpl.
  destruct (apply_condition c changes); repeat (constructor; [exact I|]);
    constructor.
Qed.

Lemma Forall_key_calls (ls : gmap string (list Listener)) (keys : list string)
    (value_of : string → JSValue) :
  Forall is_listener_call
    (keys ≫= λ key, listener_calls ls key (value_of key)).
Proof.
  apply Forall_bind, Forall_true. intros key.
  eapply Forall_impl; [apply Forall_listener_calls|]. by intros [].
Qed.

Lemma Forall_emit_each_calls (ls : gmap string (list Listener))
    (keys : list string) (value_of : string → JSValue) :
  Forall is_listener_call (emit_each_calls ls keys value_of).
Proof.
  induction keys as [|key rest IH]; cbn [emit_each_calls]; [constructor|].
  case_decide; [constructor|]. apply Forall_app. split; [|done].
  eapply Forall_impl; [apply Forall_listener_calls|]. by intros [].
Qed.

(** The calls for one key among those made for a duplicate-free batch. *)
Lemma filter_key_calls (ls : gmap string (list Listener)) (keys : list string)
    (value_of : string → JSValue) (key : string) :
  NoDup keys →
  filter (is_listener_call_for key)
    (keys ≫= λ k, listener_calls ls k (value_of k))
  = if decide (key ∈ keys) then listener_calls ls key (value_of key) else [].
Proof.
  induction 1 as [|k rest Hk Hnd IH].
  - by rewrite decide_False by apply not_elem_of_nil.
  - rewrite bind_cons, filter_app, IH.
    destruct (decide (k = key)) as [->|Hne].
    + rewrite filter_Forall by apply Forall_listener_calls.
      rewrite decide_False by done.
      rewrite decide_True by apply list_elem_of_here. by rewrite app_nil_r.
    + rewrite filter_Forall_not.
      2:{ eapply Forall_impl; [apply Forall_listener_calls|].
          intros []; simpl; congruence. }
      destruct (decide (key ∈ rest)) as [Hin|Hin].
      * by rewrite decide_True by (by apply list_elem_of_further).
      * rewrite decide_False; [done|].
        rewrite not_elem_of_cons. split; [congruence | done].
Qed.

Lemma precedes_app (P Q : Call → Prop) (l1 l2 : list Call) :
  Forall (λ c, ¬ Q c) l1 → Forall (λ c, ¬ P c) l2 → precedes P Q (l1 ++ l2).
Proof.
  intros H1 H2 i j a b Ha Hb HP HQ.
  apply lookup_app_Some in Ha as [Ha|[_ Ha]].
  2:{ exfalso. by eapply (proj1 (Forall_lookup _ _) H2). }
  apply lookup_app_Some in Hb as [Hb|[Hj _]].
  { exfalso. by eapply (proj1 (Forall_lookup _ _) H1). }
  apply lookup_lt_Some in Ha. lia.
Qed.

(** ** Counting calls *)

Lemma times_app {A : Type} `{EqDecision A} (x : A) (l1 l2 : list A) :
  times x (l1 ++ l2) = times x l1 + times x l2.
Proof. unfold times. by rewrite filter_app, length_app. Qed.

Lemma times_fmap_inj {A B : Type} `{EqDecision A, EqDecision B} (f : A → B)
    (x : A) (l : list A) :
  (∀ a b, f a = f b → a = b) →
  times (f x) (f <$> l) = times x l.
Proof.
  intros Hinj. unfold times. induction l as [|y rest IH]; [done|].
  rewrite fmap_cons. destruct (decide (y = x)) as [->|Hne].
  - rewrite !filter_cons_True by done. simpl. by rewrite IH.
  - rewrite !filter_cons_False; [done | done |].
    intros Heq. by apply Hne, Hinj.
Qed.

Lemma times_filter {A : Type} `{EqDecision A} (P : A → Prop)
    `{!∀ x, Decision (P x)} (x : A) (l : list A) :
  P x → times x (filter P l) = times x l.
Proof.
  intros HP. unfold times. rewrite list_filter_filter.
  f_equal. apply list_filter_iff. intros y. split; [tauto|].
  intros ->. done.
Qed.

Lemma times_absent {A : Type} `{EqDecision A} (x : A) (l : list A) :
  x ∉ l → times x l = 0.
Proof.
  intros Hx. unfold times. rewrite filter_Forall_not; [done|].
  apply Forall_forall. intros y Hy ->. done.
Qed.

Lemma CallAnyListener_inj (a b : AnyListener) :
  CallAnyListener a = CallAnyListener b → a = b.
Proof. congruence. Qed.

Lemma CallListener_inj (key : string) (newData : JSValue) (a b : Listener) :
  CallListener a key newData = CallListener b key newData → a = b.
Proof. congruence. Qed.

(** When the AnyListener calls of a trace are one call per registry entry,
    each function is called as many times as it is registered. *)
Lemma times_any_call (tr : list Call) (ls : list AnyListener) (l : AnyListener) :
  filter is_any_call tr = CallAnyListener <$> ls →
  times (CallAnyListener l) tr = times l ls.
Proof.
  intros Hp. rewrite <- (times_filter is_any_call) by done.
  by rewrite Hp, (times_fmap_inj CallAnyListener) by apply CallAnyListener_inj.
Qed.

Lemma times_listener_call (tr : list Call) (arr : list Listener)
    (key : string) (newData : JSValue) (l : Listener) :
  filter (is_listener_call_for key) tr
    = (λ l, CallListener l key newData) <$> arr →
  times (CallListener l key newData) tr = times l arr
  ∧ ∀ other, other ≠ newData → times (CallListener l key other) tr = 0.
Proof.
  intros Hp. split.
  - rewrite <- (times_filter (is_listener_call_for key)) by done.
    by rewrite Hp, (times_fmap_inj (λ l, CallListener l key newData))
      by apply CallListener_inj.
  - intros other Hother.
    rewrite <- (times_filter (is_listener_call_for key)) by done.
    rewrite Hp. apply times_absent.
    intros (l' & Heq & _)%list_elem_of_fmap. congruence.
Qed.

(** ** [get] and [set] *)

Lemma get_run (key : string) (defaultValue : JSValue)
    (this : ConfigInstance) :
  get key defaultValue this
  = (Normal (match prop_read (config this) key with
             | JSUndefined => defaultValue
             | v => v
             end), this, []).
Proof. reflexivity. Qed.

(** [get] on a key that names a member of [Object.prototype] and that the
    map does not own returns that member, whatever the default. *)
Lemma get_inherited (key : string) (defaultValue : JSValue)
    (this : ConfigInstance) :
  key ∉ Object_keys (config this) →
  key ∈ Object_prototype_names →
  get key defaultValue this = (Normal (JSInherited key), this, []).
Proof. intros Hk Hn. by rewrite get_run, prop_read_inherited. Qed.

Lemma set_any_calls (key : string) (value : ConfigData)
    (this : ConfigInstance) :
  ¬ emit_throws (listeners this) key →
  filter is_any_call (calls (set key value this))
  = CallAnyListener <$> anyListeners this.
Proof.
  intros Hok. rewrite set_run, decide_False by done. unfold calls. cbn [snd].
  rewrite filter_app.
  rewrite (filter_Forall is_any_call (CallAnyListener <$> anyListeners this))
    by apply Forall_any_calls.
  rewrite filter_Forall_not; [done|].
  eapply Forall_impl; [apply Forall_listener_calls|]. class_cases.
Qed.

(** [set] on a key whose registry lookup hits an inherited member throws
    after the write and before any listener is called. *)
Lemma set_inherited (key : string) (value : ConfigData)
    (this : ConfigInstance) :
  listeners this !! key = None →
  key ∈ Object_prototype_names →
  set key value this
  = (Throw TypeError, with_config (prop_set (config this) key value) this,
     []).
Proof. intros Hk Hn. by rewrite set_run, decide_True. Qed.

(** A [catch] clause that returns a value turns every abrupt completion of
    the [try] block into that value. *)
Lemma try_catch_returns {A : Type} (body : M A) (d : A) (this : ConfigInstance) :
  (∃ a, completion (try_catch body (λ _, mret d) this) = Normal a)
  ∧ (∀ e, completion (body this) = Throw e →
          completion (try_catch body (λ _, mret d) this) = Normal d).
Proof.
  unfold try_catch, completion.
  destruct (body this) as [[[a|e] this'] tr]; simpl.
  - split; [by exists a | intros e; discriminate].
  - split; [by exists d | done].
Qed.

(** ** Polled synchronisation *)

(** C6. A tick of either polled handler whose fetched snapshot gives an empty
    batch against the current map completes without making any call and
    leaves the instance, hence its map, as it was. *)
Theorem polled_empty_batch (fetched : ConfigObject) (this : ConfigInstance) :
  diffs fetched (config this) = [] →
  syncConfig_tick fetched this = (Normal (), this, [])
  ∧ syncConfigBackground_tick fetched this = (Normal (), this, []).
Proof.
  intros Hd.
  rewrite syncConfig_tick_run, syncConfigBackground_tick_run.
  by rewrite !decide_True.
Qed.

(** What a polled tick does when the batch is not empty: predicates and
    callbacks of the ConditionalListeners first, then the AnyListeners
    (through [load]), and no KeyListener at all. *)
Lemma polled_call_order (fetched : ConfigObject) (this : ConfigInstance) :
  precedes is_condition_call is_any_call
    (calls (syncConfig_tick fetched this))
  ∧ precedes is_condition_call is_any_call
      (calls (syncConfigBackground_tick fetched this))
  ∧ filter is_listener_call (calls (syncConfig_tick fetched this)) = []
  ∧ filter is_listener_call (calls (syncConfigBackground_tick fetched this))
    = [].
Proof.
  rewrite syncConfig_tick_run, syncConfigBackground_tick_run.
  destruct (decide (diffs fetched (config this) = [])) as [Hd|Hd];
    unfold calls; cbn [snd].
  { split_and!; try done; by intros i j a b Ha. }
  pose proof (Forall_condition_calls (diffs fetched (config this))
                (conditionListeners this)) as Hc.
  pose proof (Forall_any_calls (anyListeners this)) as Ha.
  split_and!.
  - apply precedes_app.
    + eapply Forall_impl; [exact Hc|]. class_cases.
    + apply Forall_app. split.
      * eapply Forall_impl; [exact Ha|]. class_cases.
      * repeat constructor. simpl. tauto.
  - apply precedes_app.
    + eapply Forall_impl; [exact Hc|]. class_cases.
    + apply Forall_app. split.
      * eapply Forall_impl; [exact Ha|]. class_cases.
      * repeat constructor. simpl. tauto.
  - rewrite !filter_app, !filter_Forall_not; [done | | |].
    + repeat constructor. simpl. tauto.
    + eapply Forall_impl; [exact Ha|]. class_cases.
    + eapply Forall_impl; [exact Hc|]. class_cases.
  - rewrite !filter_app, !filter_Forall_not; [done | | |].
    + repeat constructor. simpl. tauto.
    + eapply Forall_impl; [exact Ha|]. class_cases.
    + eapply Forall_impl; [exact Hc|]. class_cases.
Qed.

(** ** Event-driven synchronisation *)

(** A notification whose ["config"] entry carries a new map. *)
Lemma onChanged_new_map_run (other : gmap string StorageChange)
    (old : option ConfigObject) (newConfig : ConfigObject)
    (this : ConfigInstance) :
  onChanged (<["config" := mkStorageChange old (Some newConfig)]> other) this
  = if decide (Forall (λ key, ¬ emit_throws (listeners this) key)
                      (diffs newConfig (config this)))
    then (Normal (), with_config newConfig this,
          emit_each_calls (listeners this) (diffs newConfig (config this))
              (prop_read newConfig)
            ++ (CallAnyListener <$> anyListeners this)
            ++ condition_calls (diffs newConfig (config this))
                 (conditionListeners this))
    else (Throw TypeError, this,
          emit_each_calls (listeners this) (diffs newConfig (config this))
            (prop_read newConfig)).
Proof.
  rewrite onChanged_run, lookup_insert_eq.
  by eapply onChanged_config_run; [apply lookup_insert_eq|].
Qed.

(** The same when no key of the batch names a member of
    [Object.prototype]: no [emit] throws and the cycle runs to its end. *)
Lemma onChanged_new_map_ok (other : gmap string StorageChange)
    (old : option ConfigObject) (newConfig : ConfigObject)
    (this : ConfigInstance) :
  Forall (λ key, key ∉ Object_prototype_names)
         (diffs newConfig (config this)) →
  onChanged (<["config" := mkStorageChange old (Some newConfig)]> other) this
  = (Normal (), with_config newConfig this,
     (diffs newConfig (config this) ≫= λ key,
        listener_calls (listeners this) key (prop_read newConfig key))
       ++ (CallAnyListener <$> anyListeners this)
       ++ condition_calls (diffs newConfig (config this))
            (conditionListeners this)).
Proof.
  intros Hall%(Forall_not_emit_throws (listeners this)).
  rewrite onChanged_new_map_run, decide_True by done.
  by rewrite emit_each_calls_all.
Qed.

(** X19. A notification saying that the ["config"] item was removed from
    storage (its new value is [undefined]) makes the [onChanged] handler
    throw a [TypeError] before any call is made, with the instance
    untouched, whatever other entries the notification carries. *)
Lemma onChanged_removed_config (other : gmap string StorageChange)
    (old : option ConfigObject) (this : ConfigInstance) :
  onChanged (<["config" := mkStorageChange old None]> other) this
  = (Throw TypeError, this, []).
Proof.
  rewrite onChanged_run, lookup_insert_eq.
  unfold onChanged_config. by rewrite lookup_insert_eq.
Qed.

(** C10. A notification without a ["config"] entry completes without making
    any call and leaves the instance as it was; and the entries other than
    ["config"] never matter: a notification acts as the one reduced to its
    ["config"] entry. *)
Theorem onChanged_without_config (changes : gmap string StorageChange)
    (this : ConfigInstance) :
  changes !! "config" = None →
  onChanged changes this = (Normal (), this, [])
  ∧ ∀ change,
      onChanged (<["config" := change]> changes) this
      = onChanged {["config" := change]} this.
Proof.
  intros Hc. split.
  - by rewrite onChanged_run, Hc.
  - intros change. rewrite !onChanged_run, lookup_insert_eq, lookup_singleton_eq.
    unfold onChanged_config. by rewrite lookup_insert_eq, lookup_singleton_eq.
Qed.

(** C2, as the code has it.  In an event-driven cycle whose batch contains
    [key] and no key naming a member of [Object.prototype], the calls made
    to the KeyListeners of [key] are exactly one call per entry of the
    registry of [key], each with the value of [key] in the new map, which is
    the value the store holds for [key] after the cycle.  A polled cycle
    calls no KeyListener. *)
Theorem onChanged_key_listeners (other : gmap string StorageChange)
    (old : option ConfigObject) (newConfig : ConfigObject)
    (this : ConfigInstance) (key : string) :
  key ∈ diffs newConfig (config this) →
  Forall (λ k, k ∉ Object_prototype_names) (diffs newConfig (config this)) →
  let r := onChanged
             (<["config" := mkStorageChange old (Some newConfig)]> other)
             this in
  completion r = Normal ()
  ∧ filter (is_listener_call_for key) (calls r)
    = ((λ l, CallListener l key (prop_read newConfig key))
         <$> default [] (listeners this !! key))
  ∧ (∀ l, times (CallListener l key (prop_read newConfig key)) (calls r)
          = times l (default [] (listeners this !! key)))
  ∧ (∀ l other_value, other_value ≠ prop_read newConfig key →
        times (CallListener l key other_value) (calls r) = 0)
  ∧ prop_read (config (final r)) key = prop_read newConfig key
  ∧ (∀ fetched,
        filter is_listener_call (calls (syncConfig_tick fetched this)) = []
        ∧ filter is_listener_call
            (calls (syncConfigBackground_tick fetched this)) = []).
Proof.
  intros Hkey Hall r.
  assert (filter (is_listener_call_for key) (calls r)
          = (λ l, CallListener l key (prop_read newConfig key))
              <$> default [] (listeners this !! key)) as Hp.
  { subst r. rewrite onChanged_new_map_ok by done. unfold calls. cbn [snd].
    rewrite !filter_app, filter_key_calls by apply NoDup_diffs.
    rewrite decide_True by done.
    rewrite !filter_Forall_not, !app_nil_r; [done | |].
    - eapply Forall_impl; [apply Forall_condition_calls|]. class_cases.
    - eapply Forall_impl; [apply Forall_any_calls|]. class_cases. }
  split_and!.
  - subst r. by rewrite onChanged_new_map_ok.
  - exact Hp.
  - intros l. apply (proj1 (times_listener_call _ _ _ _ l Hp)).
  - intros l. apply (proj2 (times_listener_call _ _ _ _ l Hp)).
  - subst r. by rewrite onChanged_new_map_ok.
  - intros fetched. apply polled_call_order.
Qed.

(** C3, as the code has it.  Each function is called as an AnyListener as
    many times as it is registered (once per registry entry): by every
    [set] on a key that does not name a member of [Object.prototype], by
    every event-driven cycle that carries a new map and whose batch holds no
    such key, whether or not that batch is empty, and by every polled cycle
    whose batch is not empty.  A polled cycle whose batch is empty calls
    none.  The number of calls never depends on the size of the batch. *)
Theorem any_listeners_once (this : ConfigInstance) (l : AnyListener) :
  (∀ key value,
      key ∉ Object_prototype_names →
      times (CallAnyListener l) (calls (set key value this))
      = times l (anyListeners this))
  ∧ (∀ other old newConfig,
        Forall (λ k, k ∉ Object_prototype_names)
               (diffs newConfig (config this)) →
        times (CallAnyListener l)
          (calls (onChanged
                    (<["config" := mkStorageChange old (Some newConfig)]> other)
                    this))
        = times l (anyListeners this))
  ∧ (∀ fetched,
        times (CallAnyListener l) (calls (syncConfig_tick fetched this))
        = (if decide (diffs fetched (config this) = []) then 0
           else times l (anyListeners this))
        ∧ times (CallAnyListener l)
            (calls (syncConfigBackground_tick fetched this))
          = (if decide (diffs fetched (config this) = []) then 0
             else times l (anyListeners this))).
Proof.
  pose proof (Forall_any_calls (anyListeners this)) as Ha.
  split_and!.
  - intros key value Hkey.
    by apply times_any_call, set_any_calls, not_emit_throws.
  - intros other old newConfig Hall. apply times_any_call.
    rewrite onChanged_new_map_ok by done. unfold calls. cbn [snd].
    rewrite !filter_app, (filter_Forall is_any_call _ Ha).
    rewrite !filter_Forall_not, app_nil_r; [done | |].
    + eapply Forall_impl; [apply Forall_condition_calls|]. class_cases.
    + eapply Forall_impl; [apply Forall_key_calls|]. class_cases.
  - intros fetched.
    rewrite syncConfig_tick_run, syncConfigBackground_tick_run.
    destruct (decide (diffs fetched (config this) = [])) as [Hd|Hd];
      unfold calls; cbn [snd]; [done|].
    split; apply times_any_call.
    + rewrite !filter_app, (filter_Forall is_any_call _ Ha).
      rewrite !filter_Forall_not, app_nil_r; [done | |].
      * repeat constructor. simpl. tauto.
      * eapply Forall_impl; [apply Forall_condition_calls|]. class_cases.
    + rewrite !filter_app, (filter_Forall is_any_call _ Ha).
      rewrite !filter_Forall_not, app_nil_r; [done | |].
      * repeat constructor. simpl. tauto.
      * eapply Forall_impl; [apply Forall_condition_calls|]. class_cases.
Qed.

(** C4, as the code has it.  Among the calls of one event-driven cycle, every
    KeyListener call comes before every AnyListener call, and every
    AnyListener call comes before every call to a predicate or callback of a
    ConditionalListener. *)
Theorem onChanged_call_order (other : gmap string StorageChange)
    (old : option ConfigObject) (newConfig : ConfigObject)
    (this : ConfigInstance) :
  let tr := calls (onChanged
                     (<["config" := mkStorageChange old (Some newConfig)]> other)
                     this) in
  precedes is_listener_call is_any_call tr
  ∧ precedes is_any_call is_condition_call tr
  ∧ precedes is_listener_call is_condition_call tr.
Proof.
  intros tr. subst tr. rewrite onChanged_new_map_run.
  pose proof (Forall_emit_each_calls (listeners this)
                (diffs newConfig (config this)) (prop_read newConfig)) as Hk.
  pose proof (Forall_any_calls (anyListeners this)) as Ha.
  pose proof (Forall_condition_calls (diffs newConfig (config this))
                (conditionListeners this)) as Hc.
  case_decide; unfold calls; cbn [snd].
  - split_and!.
    + apply precedes_app.
      * eapply Forall_impl; [exact Hk|]. class_cases.
      * apply Forall_app. split.
        -- eapply Forall_impl; [exact Ha|]. class_cases.
        -- eapply Forall_impl; [exact Hc|]. class_cases.
    + rewrite app_assoc. apply precedes_app.
      * apply Forall_app. split.
        -- eapply Forall_impl; [exact Hk|]. class_cases.
        -- eapply Forall_impl; [exact Ha|]. class_cases.
      * eapply Forall_impl; [exact Hc|]. class_cases.
    + rewrite app_assoc. apply precedes_app.
      * apply Forall_app. split.
        -- eapply Forall_impl; [exact Hk|]. class_cases.
        -- eapply Forall_impl; [exact Ha|]. class_cases.
      * eapply Forall_impl; [exact Hc|]. class_cases.
  - rewrite <- (app_nil_r (emit_each_calls _ _ _)).
    split_and!; apply precedes_app; try constructor.
    all: eapply Forall_impl; [exact Hk|]; class_cases.
Qed.

(** ** Removing listeners *)

Lemma with_listeners_id (this : ConfigInstance) :
  with_listeners (listeners this) this = this.
Proof. by destruct this. Qed.

Lemma filter_ne_absent {A : Type} `{EqDecision A} (x : A) (l : list A) :
  x ∉ l → filter (λ y, y ≠ x) l = l.
Proof.
  intros Hx. apply filter_Forall, Forall_forall. intros y Hy ->. done.
Qed.

Lemma removeListener_run (key : string) (listener : Listener)
    (this : ConfigInstance) :
  removeListener key listener this
  = match listeners this !! key with
    | Some arr =>
        (Normal (),
         with_listeners (<[key := filter (λ l, l ≠ listener) arr]>
                           (listeners this)) this, [])
    | None =>
        if decide (key ∈ Object_prototype_names)
        then (Throw TypeError, this, [])
        else (Normal (), this, [])
    end.
Proof.
  unfold removeListener. rewrite bind_run. cbn [read].
  destruct (listeners this !! key); [done|]. by case_decide.
Qed.

(** Unless the registry lookup hits an inherited member, [removeListener]
    keeps, in order, the entries of the registry of [key] that are not
    [listener], and touches nothing else. *)
Lemma removeListener_spec (key : string) (listener : Listener)
    (this : ConfigInstance) :
  ¬ emit_throws (listeners this) key →
  let r := removeListener key listener this in
  completion r = Normal () ∧ calls r = []
  ∧ listeners (final r) !! key
    = filter (λ l, l ≠ listener) <$> listeners this !! key
  ∧ (∀ k, k ≠ key → listeners (final r) !! k = listeners this !! k)
  ∧ config (final r) = config this
  ∧ anyListeners (final r) = anyListeners this
  ∧ conditionListeners (final r) = conditionListeners this.
Proof.
  intros Hok r. subst r. rewrite removeListener_run.
  destruct (listeners this !! key) as [arr|] eqn:Hk; cbn.
  - split_and!; try done.
    + by rewrite lookup_insert_eq.
    + intros k Hne. by rewrite lookup_insert_ne.
  - rewrite decide_False by (intros Hin; by apply Hok).
    cbn. by rewrite Hk.
Qed.

(** Removing a KeyListener that is not registered for [key] changes
    nothing. *)
Lemma removeListener_absent (key : string) (listener : Listener)
    (this : ConfigInstance) :
  ¬ emit_throws (listeners this) key →
  listener ∉ default [] (listeners this !! key) →
  removeListener key listener this = (Normal (), this, []).
Proof.
  intros Hok Hl. rewrite removeListener_run.
  destruct (listeners this !! key) as [arr|] eqn:Hk; cbn.
  - cbn in Hl. rewrite filter_ne_absent by done.
    by rewrite insert_id, with_listeners_id.
  - by rewrite decide_False by (intros Hin; by apply Hok).
Qed.

(** On a key that names a member of [Object.prototype], [removeListener]
    and [addListener] throw and change nothing, and [emit] throws without
    calling anyone. *)
Lemma listener_methods_inherited (key : string) (listener : Listener)
    (newData : JSValue) (this : ConfigInstance) :
  listeners this !! key = None →
  key ∈ Object_prototype_names →
  addListener key listener this = (Throw TypeError, this, [])
  ∧ removeListener key listener this = (Throw TypeError, this, [])
  ∧ emit key newData this = (Throw TypeError, this, []).
Proof.
  intros Hk Hn. split_and!.
  - unfold addListener. rewrite bind_run. cbn [read].
    by rewrite Hk, decide_True.
  - by rewrite removeListener_run, Hk, decide_True.
  - by rewrite emit_run, decide_True.
Qed.

(** [removeAnyListener] keeps, in order, the entries that are not
    [listener]; removing an unregistered one changes nothing. *)
Lemma removeAnyListener_spec (listener : AnyListener) (this : ConfigInstance) :
  removeAnyListener listener this
  = (Normal (),
     with_anyListeners (filter (λ l, l ≠ listener) (anyListeners this)) this,
     []).
Proof. reflexivity. Qed.

Lemma removeAnyListener_absent (listener : AnyListener)
    (this : ConfigInstance) :
  listener ∉ anyListeners this →
  removeAnyListener listener this = (Normal (), this, []).
Proof.
  intros Hl. rewrite removeAnyListener_spec, filter_ne_absent by done.
  by destruct this.
Qed.

(** [removeConditionListener] drops every pair that shares its predicate or
    its callback with the arguments. *)
Lemma removeConditionListener_spec (condition : CoditionListener)
    (listener : AnyListener) (this : ConfigInstance) (c : CoditionListener)
    (l : AnyListener) :
  (c, l) ∈ conditionListeners
             (final (removeConditionListener condition listener this))
  ↔ (c, l) ∈ conditionListeners this ∧ c ≠ condition ∧ l ≠ listener.
Proof.
  unfold removeConditionListener, write, final. cbn.
  rewrite list_elem_of_filter. cbn. tauto.
Qed.

End Handlers.

(** * Concrete runs *)

(** C8, on the store [ex_shared] with the pairs [[10, 11]], [[12, 11]] and
    [[10, 13]].  Removing the pair [[10, 11]] also drops the two other
    pairs, which only share one component with it; and removing the pair
    [[12, 13]], which was never added, drops [[12, 11]] and [[10, 13]]. *)
Theorem removeConditionListener_drops_shared :
  conditionListeners ex_shared = [(10, 11); (12, 11); (10, 13)]
  ∧ conditionListeners (final (removeConditionListener 10 11 ex_shared)) = []
  ∧ ((12, 13) ∉ conditionListeners ex_shared)
  ∧ conditionListeners (final (removeConditionListener 12 13 ex_shared))
    = [(10, 11)].
Proof.
  split_and!; try reflexivity.
  apply (bool_decide_unpack _). vm_compute. exact I.
Qed.

(** C5, on the store [ex_this], whose AnyListeners are 7 and 8 and whose
    listener registry has no entry for ["constructor"].  The call
    [set("constructor", true)] writes the property and then throws a
    [TypeError] in [emit], because [this.listeners["constructor"]] is the
    inherited [Object] and has no [forEach]: no AnyListener is called.  And
    after [set("__proto__", true)], which stores nothing, [get("__proto__")]
    returns the inherited member, not [true]. *)
Theorem set_inherited_key_throws :
  anyListeners ex_this = [7; 8]
  ∧ listeners ex_this !! "constructor" = None
  ∧ set "constructor" (CBoolean true) ex_this
    = (Throw TypeError,
       with_config [("a", CBoolean true); ("constructor", CBoolean true)]
                   ex_this,
       [])
  ∧ completion
      (get "__proto__" JSUndefined
         (final (set "__proto__" (CBoolean true) ex_this)))
    = Normal (JSInherited "__proto__").
Proof. split_and!; vm_compute; reflexivity. Qed.

(** C7, on the store [ex_this], whose map [{a: true}] does not own
    ["toString"]: [get("toString", "d")] returns the inherited
    [Object.prototype.toString], not ["d"], and [get("toString")] returns it
    too, not [undefined]. *)
Theorem get_inherited_key_ignores_default :
  ("toString" ∉ Object_keys (config ex_this))
  ∧ get "toString" (JSData (CString "d")) ex_this
    = (Normal (JSInherited "toString"), ex_this, [])
  ∧ get "toString" JSUndefined ex_this
    = (Normal (JSInherited "toString"), ex_this, []).
Proof.
  split_and!; [|vm_compute; reflexivity..].
  apply (bool_decide_unpack _). vm_compute. exact I.
Qed.

(** A polled tick that fetches the very map [ex_this] holds. *)
Lemma polled_empty_batch_witness :
  diffs (config ex_this) (config ex_this) = []
  ∧ syncConfig_tick ex_condition (config ex_this) ex_this
    = (Normal (), ex_this, [])
  ∧ syncConfigBackground_tick ex_condition (config ex_this) ex_this
    = (Normal (), ex_this, []).
Proof.
  assert (diffs (config ex_this) (config ex_this) = []) as Hd.
  { vm_compute. reflexivity. }
  split; [exact Hd|].
  exact (polled_empty_batch ex_condition (config ex_this) ex_this Hd).
Defined.

(** A notification about another storage item. *)
Lemma onChanged_without_config_witness :
  ({["other" := mkStorageChange None None]} : gmap string StorageChange)
    !! "config" = None
  ∧ onChanged ex_condition {["other" := mkStorageChange None None]} ex_this
    = (Normal (), ex_this, []).
Proof.
  assert (({["other" := mkStorageChange None None]}
             : gmap string StorageChange) !! "config" = None) as Hc.
  { vm_compute. reflexivity. }
  split; [exact Hc|].
  exact (proj1 (onChanged_without_config ex_condition _ ex_this Hc)).
Defined.

(** An event-driven cycle on [ex_this] carrying [ex_fetched]: the batch is
    [x, a], and the two KeyListeners of ["x"] are called once each with the
    new value [false]. *)
Lemma onChanged_key_listeners_witness :
  "x" ∈ diffs ex_fetched (config ex_this)
  ∧ filter (is_listener_call_for "x")
      (calls (onChanged ex_condition
                (<["config" := mkStorageChange None (Some ex_fetched)]> ∅)
                ex_this))
    = [CallListener 1 "x" (JSData (CBoolean false));
       CallListener 2 "x" (JSData (CBoolean false))].
Proof.
  assert ("x" ∈ diffs ex_fetched (config ex_this)) as Hx.
  { apply (bool_decide_unpack _). vm_compute. exact I. }
  assert (Forall (λ k, k ∉ Object_prototype_names)
                 (diffs ex_fetched (config ex_this))) as Hall.
  { apply (bool_decide_unpack _). vm_compute. exact I. }
  split; [exact Hx|].
  exact (proj1 (proj2 (onChanged_key_listeners ex_condition ∅ None ex_fetched
                         ex_this "x" Hx Hall))).
Defined.

(** [set("x", false)] on [ex_this] calls AnyListener 7 once. *)
Lemma any_listeners_once_witness :
  ("x" ∉ Object_prototype_names)
  ∧ times (CallAnyListener 7) (calls (set "x" (CBoolean false) ex_this)) = 1.
Proof.
  assert ("x" ∉ Object_prototype_names) as Hx.
  { apply (bool_decide_unpack _). vm_compute. exact I. }
  split; [exact Hx|].
  exact (proj1 (any_listeners_once ex_condition ex_this 7)
           "x" (CBoolean false) Hx).
Defined.

(** C2 as stated fails on a polled cycle: the batch of this tick contains
    ["x"], listeners 1 and 2 are registered for ["x"], and neither is
    called. *)
Lemma polled_cycle_calls_no_key_listener :
  "x" ∈ diffs ex_fetched (config ex_this)
  ∧ listeners ex_this !! "x" = Some [1; 2]
  ∧ calls (syncConfig_tick ex_condition ex_fetched ex_this)
    = [CallCondition 10 ["x"; "a"]; CallConditionListener 10 11;
       CallCondition 12 ["x"; "a"]; CallAnyListener 7; CallAnyListener 8;
       DispatchEvent "chzzkExtConfig"]
  ∧ times (CallListener 1 "x" (prop_read ex_fetched "x"))
      (calls (syncConfig_tick ex_condition ex_fetched ex_this)) = 0.
Proof.
  split_and!.
  - apply (bool_decide_unpack _). vm_compute. exact I.
  - vm_compute. reflexivity.
  - vm_compute. reflexivity.
  - vm_compute. reflexivity.
Qed.

(** C3 as stated fails on an event-driven cycle: the notification carries
    the map the store already holds, the batch is empty, and both
    AnyListeners are called. *)
Lemma onChanged_empty_batch_calls_any_listeners :
  diffs (config ex_this) (config ex_this) = []
  ∧ calls (onChanged ex_condition
             {["config" := mkStorageChange None (Some (config ex_this))]}
             ex_this)
    = [CallAnyListener 7; CallAnyListener 8; CallCondition 10 [];
       CallConditionListener 10 11; CallCondition 12 []]
  ∧ times (CallAnyListener 7)
      (calls (onChanged ex_condition
                {["config" := mkStorageChange None (Some (config ex_this))]}
                ex_this)) = 1.
Proof. split_and!; vm_compute; reflexivity. Qed.

(** C4 as stated fails on a polled cycle: the callback of the
    ConditionalListener [[10, 11]] is called before the AnyListeners. *)
Lemma polled_cycle_condition_before_any :
  diffs ex_fetched (config ex_this) = ["x"; "a"]
  ∧ calls (syncConfig_tick ex_condition ex_fetched ex_this)
    = [CallCondition 10 ["x"; "a"]; CallConditionListener 10 11;
       CallCondition 12 ["x"; "a"]; CallAnyListener 7; CallAnyListener 8;
       DispatchEvent "chzzkExtConfig"]
  ∧ ¬ precedes is_any_call is_condition_call
        (calls (syncConfig_tick ex_condition ex_fetched ex_this)).
Proof.
  assert (calls (syncConfig_tick ex_condition ex_fetched ex_this)
          = [CallCondition 10 ["x"; "a"]; CallConditionListener 10 11;
             CallCondition 12 ["x"; "a"]; CallAnyListener 7;
             CallAnyListener 8; DispatchEvent "chzzkExtConfig"]) as Htr.
  { vm_compute. reflexivity. }
  split_and!.
  - vm_compute. reflexivity.
  - exact Htr.
  - rewrite Htr. intros Hbefore.
    specialize (Hbefore 3 1 (CallAnyListener 7) (CallConditionListener 10 11)
                  eq_refl eq_refl I I).
    lia.
Qed.

(** * Further properties of the store *)

Section Store.

Variable apply_condition : CoditionListener → list string → bool.

(** ** Writing properties *)

Lemma Object_keys_prop_overwrite (obj : ConfigObject) (key : string)
    (value : ConfigData) :
  Object_keys (prop_overwrite obj key value) = Object_keys obj.
Proof.
  unfold Object_keys. induction obj as [|[k v] rest IH]; cbn; [done|].
  case_decide; cbn; [done|]. by rewrite IH.
Qed.

Lemma prop_overwrite_twice (obj : ConfigObject) (key : string)
    (v1 v2 : ConfigData) :
  prop_overwrite (prop_overwrite obj key v1) key v2
  = prop_overwrite obj key v2.
Proof.
  induction obj as [|[k v] rest IH]; cbn; [done|].
  case_decide; cbn.
  - by rewrite decide_True.
  - by rewrite decide_False, IH.
Qed.

Lemma prop_overwrite_insert_index (obj : ConfigObject) (n : N) (key : string)
    (v1 v2 : ConfigData) :
  key ∉ Object_keys obj →
  prop_overwrite (prop_insert_index obj n key v1) key v2
  = prop_insert_index obj n key v2.
Proof.
  unfold Object_keys. induction obj as [|[k v] rest IH]; cbn.
  - intros _. by rewrite decide_True.
  - intros [Hk Hrest]%not_elem_of_cons.
    destruct (array_index k) as [m|]; [destruct (n <? m)%N|]; cbn.
    + by rewrite decide_True.
    + rewrite decide_False by done. by rewrite IH.
    + by rewrite decide_True.
Qed.

Lemma prop_overwrite_app_new (obj : ConfigObject) (key : string)
    (v1 v2 : ConfigData) :
  key ∉ Object_keys obj →
  prop_overwrite (obj ++ [(key, v1)]) key v2 = obj ++ [(key, v2)].
Proof.
  unfold Object_keys. induction obj as [|[k v] rest IH]; cbn.
  - intros _. by rewrite decide_True.
  - intros [Hk Hrest]%not_elem_of_cons.
    rewrite decide_False by done. by rewrite IH.
Qed.

(** Where a new array-index key lands among the keys. *)
Lemma Object_keys_prop_insert_index (obj : ConfigObject) (n : N)
    (key : string) (value : ConfigData) :
  ∃ before after,
    Object_keys obj = before ++ after
    ∧ Object_keys (prop_insert_index obj n key value)
      = before ++ key :: after
    ∧ Forall (λ k, ∃ m, array_index k = Some m ∧ (m ≤ n)%N) before
    ∧ match after with
      | [] => True
      | k :: _ =>
          match array_index k with
          | Some m => (n < m)%N
          | None => True
          end
      end.
Proof.
  unfold Object_keys. induction obj as [|[k v] rest IH]; cbn.
  - exists [], []. by split_and!.
  - destruct (array_index k) as [m|] eqn:Hk;
      [destruct (n <? m)%N eqn:Hlt|].
    + exists [], (k :: rest.*1). split_and!; try done.
      rewrite Hk. by apply N.ltb_lt.
    + destruct IH as (before & after & Hkeys & Hkeys' & Hbefore & Hafter).
      exists (k :: before), after. cbn. rewrite Hkeys, Hkeys'.
      split_and!; try done. constructor; [|done].
      exists m. split; [done|]. by apply N.ltb_ge.
    + exists [], (k :: rest.*1). split_and!; try done. by rewrite Hk.
Qed.

Lemma array_index_proto : array_index "__proto__" = None.
Proof. reflexivity. Qed.

Lemma prop_set_prop_set (obj : ConfigObject) (key : string)
    (v1 v2 : ConfigData) :
  prop_set (prop_set obj key v1) key v2 = prop_set obj key v2.
Proof.
  unfold prop_set at 2 3. case_decide as Hin.
  - unfold prop_set. rewrite Object_keys_prop_overwrite.
    rewrite decide_True by done. apply prop_overwrite_twice.
  - case_decide as Hproto.
    + unfold prop_set. by rewrite decide_False, decide_True.
    + destruct (array_index key) as [n|] eqn:Hidx.
      * unfold prop_set. rewrite decide_True.
        -- by apply prop_overwrite_insert_index.
        -- destruct (Object_keys_prop_insert_index obj n key v1)
             as (before & after & _ & -> & _).
           rewrite elem_of_app, elem_of_cons. tauto.
      * unfold prop_set. rewrite decide_True.
        -- by apply prop_overwrite_app_new.
        -- unfold Object_keys. rewrite fmap_app, elem_of_app. right.
           apply list_elem_of_here.
Qed.

Lemma NoDup_Object_keys_prop_set (obj : ConfigObject) (key : string)
    (value : ConfigData) :
  NoDup (Object_keys obj) → NoDup (Object_keys (prop_set obj key value)).
Proof.
  intros Hnd. unfold prop_set. case_decide as Hin.
  - by rewrite Object_keys_prop_overwrite.
  - case_decide; [done|]. destruct (array_index key) as [n|].
    + destruct (Object_keys_prop_insert_index obj n key value)
        as (before & after & Hkeys & -> & _).
      rewrite Hkeys in Hnd, Hin.
      apply NoDup_app in Hnd as (Hb & Hba & Ha).
      rewrite elem_of_app in Hin.
      apply NoDup_app. split_and!; [done | |].
      * intros k Hk [->|Hk']%elem_of_cons; [tauto|]. by apply (Hba k).
      * apply NoDup_cons. split; [tauto | done].
    + unfold Object_keys. rewrite fmap_app. apply NoDup_app.
      split_and!; [done | | apply NoDup_singleton].
      intros k Hk ->%list_elem_of_singleton. done.
Qed.

(** X1. [set(key, value)] touches nothing but the property [key], whether or
    not it goes on to throw: every other key reads as before; an existing
    key keeps its place in the key order; a new key is created last, except
    that a new array-index key is placed after the index keys that are not
    greater and before every other key, and that ["__proto__"] creates no
    key; keys stay unique; and the three listener registries are
    unchanged. *)
Theorem set_frame (this : ConfigInstance) (key : string) (value : ConfigData) :
  let this' := final (set key value this) in
  let keys := Object_keys (config this) in
  let keys' := Object_keys (config this') in
  (∀ k d, k ≠ key →
      completion (get k d this') = completion (get k d this))
  ∧ (key ∈ keys → keys' = keys)
  ∧ ((key ∉ keys) → key = "__proto__" → keys' = keys)
  ∧ ((key ∉ keys) → key ≠ "__proto__" → array_index key = None →
       keys' = keys ++ [key])
  ∧ ((key ∉ keys) → ∀ n, array_index key = Some n →
       ∃ before after,
         keys = before ++ after ∧ keys' = before ++ key :: after
         ∧ Forall (λ k, ∃ m, array_index k = Some m ∧ (m ≤ n)%N) before
         ∧ match after with
           | [] => True
           | k :: _ =>
               match array_index k with
               | Some m => (n < m)%N
               | None => True
               end
           end)
  ∧ (NoDup keys → NoDup keys')
  ∧ listeners this' = listeners this
  ∧ anyListeners this' = anyListeners this
  ∧ conditionListeners this' = conditionListeners this.
Proof.
  intros this' keys keys'. subst this' keys keys'. rewrite set_final.
  unfold with_config. cbn [config listeners anyListeners conditionListeners].
  split_and!; try done.
  - intros k d Hne. rewrite !get_run. unfold completion. cbn [fst config].
    by rewrite prop_read_set_ne.
  - intros Hin. unfold prop_set. rewrite decide_True by done.
    apply Object_keys_prop_overwrite.
  - intros Hin Hproto. unfold prop_set.
    by rewrite decide_False, decide_True.
  - intros Hin Hproto Hidx. unfold prop_set.
    rewrite decide_False, decide_False, Hidx by done.
    unfold Object_keys. by rewrite fmap_app.
  - intros Hin n Hidx. unfold prop_set.
    rewrite decide_False, decide_False, Hidx; [|by intros -> |done].
    apply Object_keys_prop_insert_index.
  - apply NoDup_Object_keys_prop_set.
Qed.

(** X2. The last write wins: [set(key, v1)] followed by [set(key, v2)]
    leaves the instance that [set(key, v2)] alone leaves, and the second
    [set] makes the calls it would have made without the first. *)
Theorem set_last_write_wins (this : ConfigInstance) (key : string)
    (v1 v2 : ConfigData) :
  set key v2 (final (set key v1 this)) = set key v2 this.
Proof.
  rewrite set_final, !set_run. unfold with_config.
  cbn [config listeners anyListeners conditionListeners].
  by rewrite prop_set_prop_set.
Qed.

(** X3. [load(cfg)] replaces the whole map: afterwards [get] returns the
    value [cfg] holds for every key [cfg] owns, and the default for a key
    that [cfg] does not own and that names no member of [Object.prototype],
    whatever the old map held; [loadAsT()] returns [cfg]; the calls are
    exactly one per AnyListener entry, no KeyListener and no
    ConditionalListener is called, and the registries are unchanged. *)
Theorem load_replaces (cfg : ConfigObject) (this : ConfigInstance) :
  let r := load cfg this in
  completion r = Normal ()
  ∧ (∀ key d v,
        prop_get cfg key = Some v →
        completion (get key d (final r)) = Normal (JSData v))
  ∧ (∀ key d,
        (key ∉ Object_keys cfg) → (key ∉ Object_prototype_names) →
        completion (get key d (final r)) = Normal d)
  ∧ completion (loadAsT (final r)) = Normal cfg
  ∧ calls r = (CallAnyListener <$> anyListeners this)
  ∧ filter is_listener_call (calls r) = []
  ∧ filter is_condition_call (calls r) = []
  ∧ listeners (final r) = listeners this
  ∧ anyListeners (final r) = anyListeners this
  ∧ conditionListeners (final r) = conditionListeners this.
Proof.
  intros r. subst r. rewrite load_run. unfold completion, final, calls.
  cbn [fst snd].
  split_and!; try done.
  - intros key d v Hv. rewrite get_run. cbn [fst config with_config].
    by rewrite (prop_read_own _ _ _ Hv).
  - intros key d Hk Hn. rewrite get_run. cbn [fst config with_config].
    by rewrite prop_read_absent.
  - apply filter_Forall_not.
    eapply Forall_impl; [apply Forall_any_calls|]. class_cases.
  - apply filter_Forall_not.
    eapply Forall_impl; [apply Forall_any_calls|]. class_cases.
Qed.



(** ** The KeyListener registry *)

Lemma filter_fmap_ne {A B : Type} `{EqDecision A, EqDecision B} (f : A → B)
    (x : A) (l : list A) :
  (∀ a b, f a = f b → a = b) →
  filter (λ y, y ≠ f x) (f <$> l) = f <$> filter (λ a, a ≠ x) l.
Proof.
  intros Hinj. induction l as [|a rest IH]; [done|].
  rewrite fmap_cons. destruct (decide (a = x)) as [->|Hne].
  - rewrite !filter_cons_False by (intros Hc; by apply Hc). exact IH.
  - rewrite !filter_cons_True; [by rewrite fmap_cons, IH | done |].
    intros Heq. by apply Hne, Hinj.
Qed.

Lemma not_elem_of_filter_ne {A : Type} `{EqDecision A} (x : A) (l : list A) :
  x ∉ filter (λ y, y ≠ x) l.
Proof. rewrite list_elem_of_filter. intros [Hne _]. by apply Hne. Qed.

Lemma addListener_run (key : string) (listener : Listener)
    (this : ConfigInstance) :
  ¬ emit_throws (listeners this) key →
  addListener key listener this
  = (Normal (),
     with_listeners
       (<[key := default [] (listeners this !! key) ++ [listener]]>
          (listeners this)) this,
     []).
Proof.
  intros Hok. unfold addListener. rewrite bind_run. cbn [read].
  destruct (listeners this !! key) as [arr|] eqn:Hk; [done|].
  by rewrite decide_False by (intros Hin; by apply Hok).
Qed.

(** [emit] on a key only depends on the registry of that key. *)
Lemma emit_other_key (k : string) (v : JSValue) (this this' : ConfigInstance) :
  listeners this' !! k = listeners this !! k →
  completion (emit k v this') = completion (emit k v this)
  ∧ calls (emit k v this') = calls (emit k v this).
Proof.
  intros Hk. rewrite !emit_run.
  assert (emit_throws (listeners this') k ↔ emit_throws (listeners this) k)
    as Hiff by (unfold emit_throws; by rewrite Hk).
  destruct (decide (emit_throws (listeners this) k)) as [Hthrow|Hok].
  - by rewrite decide_True by tauto.
  - rewrite decide_False by tauto. unfold completion, calls, listener_calls.
    cbn [fst snd]. by rewrite Hk.
Qed.

(** X5. For a key that names no member of [Object.prototype]: after
    [addListener(key, listener)], [emit(key, v)] makes the calls it made
    before, in the same order, followed by [listener(key, v)]; [emit] on
    every other key is unchanged; registering makes no call and leaves the
    map and the other registries as they are. *)
Theorem addListener_then_emit (this : ConfigInstance) (key : string)
    (listener : Listener) :
  key ∉ Object_prototype_names →
  let r := addListener key listener this in
  completion r = Normal () ∧ calls r = []
  ∧ (∀ v, emit key v (final r)
          = (Normal (), final r,
             calls (emit key v this) ++ [CallListener listener key v]))
  ∧ (∀ k v, k ≠ key →
        completion (emit k v (final r)) = completion (emit k v this)
        ∧ calls (emit k v (final r)) = calls (emit k v this))
  ∧ config (final r) = config this
  ∧ anyListeners (final r) = anyListeners this
  ∧ conditionListeners (final r) = conditionListeners this.
Proof.
  intros Hkey r. subst r.
  rewrite addListener_run by (by apply not_emit_throws).
  unfold completion at 1, final, calls at 1. cbn [fst snd].
  split_and!; try done.
  - intros v. rewrite !emit_run, !decide_False by (by apply not_emit_throws).
    unfold calls. cbn [snd]. unfold listener_calls.
    cbn [listeners with_listeners].
    rewrite lookup_insert_eq. cbn [default from_option id].
    by rewrite fmap_app.
  - intros k v Hne. apply emit_other_key.
    cbn [listeners with_listeners]. by rewrite lookup_insert_ne.
Qed.

(** X6. For a key that names no member of [Object.prototype]: after
    [removeListener(key, listener)], [emit(key, v)] makes the calls it made
    before without the calls to [listener], however many times it was
    registered, and in the same order; [emit] on every other key is
    unchanged; removing makes no call, leaves the map and the other
    registries as they are, and removing again changes nothing. *)
Theorem removeListener_then_emit (this : ConfigInstance) (key : string)
    (listener : Listener) :
  key ∉ Object_prototype_names →
  let r := removeListener key listener this in
  completion r = Normal () ∧ calls r = []
  ∧ (∀ v, emit key v (final r)
          = (Normal (), final r,
             filter (λ c, c ≠ CallListener listener key v)
                    (calls (emit key v this))))
  ∧ (∀ v, times (CallListener listener key v) (calls (emit key v (final r)))
          = 0)
  ∧ (∀ k v, k ≠ key →
        completion (emit k v (final r)) = completion (emit k v this)
        ∧ calls (emit k v (final r)) = calls (emit k v this))
  ∧ removeListener key listener (final r) = (Normal (), final r, [])
  ∧ config (final r) = config this
  ∧ anyListeners (final r) = anyListeners this
  ∧ conditionListeners (final r) = conditionListeners this.
Proof.
  intros Hkey r.
  destruct (removeListener_spec key listener this
              (not_emit_throws _ _ Hkey))
    as (Hc & Htr & Hreg & Hother & Hcfg & Hany & Hcond).
  fold r in Hc, Htr, Hreg, Hother, Hcfg, Hany, Hcond.
  assert (∀ v, emit key v (final r)
               = (Normal (), final r,
                  filter (λ c, c ≠ CallListener listener key v)
                         (calls (emit key v this)))) as Hemit.
  { intros v. rewrite !emit_run, !decide_False by (by apply not_emit_throws).
    unfold calls. cbn [snd].
    unfold listener_calls. rewrite Hreg.
    rewrite (filter_fmap_ne (λ l, CallListener l key v))
      by apply CallListener_inj.
    by destruct (listeners this !! key). }
  split_and!; try done.
  - intros v. rewrite Hemit. unfold calls at 1. cbn [snd].
    apply times_absent, not_elem_of_filter_ne.
  - intros k v Hne. apply emit_other_key. by apply Hother.
  - apply removeListener_absent; [by apply not_emit_throws|]. rewrite Hreg.
    destruct (listeners this !! key) as [arr|]; cbn.
    + apply not_elem_of_filter_ne.
    + apply not_elem_of_nil.
Qed.

(** X7. For a key that names no member of [Object.prototype]: registering a
    listener that is not yet registered for [key] and then removing it
    brings every [emit] back to what it did before.  The instance itself is
    restored exactly when [key] already had a registry; when it had none,
    [key] is left with an empty registry. *)
Theorem add_remove_listener (this : ConfigInstance) (key : string)
    (listener : Listener) :
  key ∉ Object_prototype_names →
  listener ∉ default [] (listeners this !! key) →
  let this' :=
    final (removeListener key listener
             (final (addListener key listener this))) in
  (∀ k v, completion (emit k v this') = completion (emit k v this)
          ∧ calls (emit k v this') = calls (emit k v this))
  ∧ (is_Some (listeners this !! key) → this' = this)
  ∧ (listeners this !! key = None → listeners this' !! key = Some [])
  ∧ config this' = config this
  ∧ anyListeners this' = anyListeners this
  ∧ conditionListeners this' = conditionListeners this.
Proof.
  intros Hkey Hl this'.
  assert (this' = with_listeners
                    (<[key := default [] (listeners this !! key)]>
                       (listeners this)) this) as ->.
  { subst this'. rewrite addListener_run by (by apply not_emit_throws).
    unfold final. cbn [fst snd].
    rewrite removeListener_run. cbn [listeners with_listeners].
    rewrite lookup_insert_eq. cbn [fst snd].
    rewrite insert_insert_eq, filter_app, filter_ne_absent by done.
    rewrite filter_cons_False by (intros Hc; by apply Hc).
    by rewrite filter_nil, app_nil_r. }
  cbn [listeners config anyListeners conditionListeners with_listeners].
  split_and!; try done.
  - intros k v. destruct (decide (k = key)) as [->|Hne].
    + rewrite !emit_run.
      rewrite !decide_False; [|intros [_ ?]; done|intros [_ ?]; done].
      unfold calls, completion, listener_calls. cbn [fst snd].
      cbn [listeners with_listeners]. rewrite lookup_insert_eq.
      by destruct (listeners this !! key).
    + apply emit_other_key. cbn [listeners with_listeners].
      by rewrite lookup_insert_ne.
  - intros [arr Harr]. rewrite Harr. cbn [default from_option id].
    by rewrite insert_id, with_listeners_id.
  - intros Hnone. by rewrite lookup_insert_eq, Hnone.
Qed.

(** ** The AnyListener registry *)

(** X8. After [removeAnyListener(listener)], [emitAny] makes the calls it
    made before without the calls to [listener], however many times it was
    registered, and in the same order; removing makes no call, leaves the
    map and the other registries as they are, and removing again changes
    nothing. *)
Theorem removeAnyListener_then_emitAny (this : ConfigInstance)
    (listener : AnyListener) :
  let r := removeAnyListener listener this in
  completion r = Normal () ∧ calls r = []
  ∧ calls (emitAny (final r))
    = filter (λ c, c ≠ CallAnyListener listener) (calls (emitAny this))
  ∧ times (CallAnyListener listener) (calls (emitAny (final r))) = 0
  ∧ removeAnyListener listener (final r) = (Normal (), final r, [])
  ∧ config (final r) = config this
  ∧ listeners (final r) = listeners this
  ∧ conditionListeners (final r) = conditionListeners this.
Proof.
  intros r. subst r. rewrite removeAnyListener_spec.
  unfold completion, final, calls. cbn [fst snd].
  assert (snd (emitAny
                 (with_anyListeners
                    (filter (λ l, l ≠ listener) (anyListeners this)) this))
          = filter (λ c, c ≠ CallAnyListener listener) (emitAny this).2)
    as Hemit.
  { rewrite !emitAny_run. cbn [snd anyListeners with_anyListeners].
    by rewrite (filter_fmap_ne CallAnyListener) by apply CallAnyListener_inj. }
  split_and!; try done.
  - rewrite Hemit. apply times_absent, not_elem_of_filter_ne.
  - apply removeAnyListener_absent. cbn [anyListeners with_anyListeners].
    apply not_elem_of_filter_ne.
Qed.

(** X9. After [addAnyListener(listener)], [emitAny] makes the calls it made
    before followed by one call to [listener].  Removing [listener] after
    adding it leaves what removing it directly leaves; so when [listener]
    was not registered before, adding and removing it restores the instance
    exactly. *)
Theorem add_remove_any_listener (this : ConfigInstance)
    (listener : AnyListener) :
  let this' := final (addAnyListener listener this) in
  calls (emitAny this') = calls (emitAny this) ++ [CallAnyListener listener]
  ∧ final (removeAnyListener listener this')
    = final (removeAnyListener listener this)
  ∧ (listener ∉ anyListeners this →
       final (removeAnyListener listener this') = this).
Proof.
  intros this'. subst this'. unfold addAnyListener, write, final.
  cbn [fst snd].
  assert ((removeAnyListener listener
             (with_anyListeners (anyListeners this ++ [listener]) this)).1.2
          = (removeAnyListener listener this).1.2) as Hsame.
  { rewrite !removeAnyListener_spec. cbn [fst snd].
    cbn [anyListeners with_anyListeners].
    rewrite filter_app, filter_cons_False by (intros Hc; by apply Hc).
    by rewrite filter_nil, app_nil_r. }
  split_and!.
  - rewrite !emitAny_run. unfold calls.
    cbn [snd anyListeners with_anyListeners]. by rewrite fmap_app.
  - exact Hsame.
  - intros Hl. rewrite Hsame. by rewrite removeAnyListener_absent.
Qed.

(** ** The ConditionalListener registry *)

Lemma times_cons {A : Type} `{EqDecision A} (x y : A) (l : list A) :
  times x (y :: l) = (if decide (y = x) then 1 else 0) + times x l.
Proof. unfold times. rewrite filter_cons. by case_decide. Qed.

Lemma times_nil {A : Type} `{EqDecision A} (x : A) : times x [] = 0.
Proof. reflexivity. Qed.

(** X10. [emitCondition(changes)] evaluates the predicate of every
    registered pair once, in registration order and on exactly the batch it
    was given, and calls the callback of a pair if and only if its predicate
    returned true: a predicate is evaluated as many times as it has pairs, a
    callback is called once per registration of its pair when the predicate
    accepts the batch and never when it rejects it.  No KeyListener or
    AnyListener is called and the instance is unchanged. *)
Theorem emitCondition_counts (changes : list string) (this : ConfigInstance)
    (c : CoditionListener) (l : AnyListener) :
  let r := emitCondition apply_condition changes this in
  completion r = Normal () ∧ final r = this
  ∧ times (CallCondition c changes) (calls r)
    = length (filter (λ cl, cl.1 = c) (conditionListeners this))
  ∧ times (CallConditionListener c l) (calls r)
    = (if apply_condition c changes
       then times (c, l) (conditionListeners this) else 0)
  ∧ (∀ other, other ≠ changes → times (CallCondition c other) (calls r) = 0)
  ∧ filter is_listener_call (calls r) = []
  ∧ filter is_any_call (calls r) = [].
Proof.
  intros r. subst r. rewrite emitCondition_run.
  unfold completion, final, calls. cbn [fst snd].
  pose proof (Forall_condition_calls apply_condition changes
                (conditionListeners this)) as Hc.
  split_and!; try done.
  - unfold condition_calls.
    induction (conditionListeners this) as [|[c0 l0] rest IH]; [done|].
    rewrite bind_cons, filter_cons. cbn [fst snd app].
    rewrite times_cons.
    assert (times (CallCondition c changes)
              ((if apply_condition c0 changes
                then [CallConditionListener c0 l0] else [])
               ++ (rest ≫= λ cl,
                     CallCondition cl.1 changes
                     :: (if apply_condition cl.1 changes
                         then [CallConditionListener cl.1 cl.2] else [])))
            = length (filter (λ cl, cl.1 = c) rest)) as ->.
    { rewrite times_app, <- IH.
      - by destruct (apply_condition c0 changes).
      - unfold condition_calls in Hc. rewrite bind_cons in Hc.
        by apply Forall_app in Hc as [_ Hc]. }
    repeat case_decide; simpl; congruence.
  - unfold condition_calls.
    induction (conditionListeners this) as [|[c0 l0] rest IH].
    { by destruct (apply_condition c changes). }
    rewrite bind_cons. cbn [fst snd app].
    rewrite times_cons, decide_False by discriminate.
    rewrite times_app, IH.
    2:{ unfold condition_calls in Hc. rewrite bind_cons in Hc.
        by apply Forall_app in Hc as [_ Hc]. }
    rewrite (times_cons (c, l)).
    destruct (decide ((c0, l0) = (c, l))) as [Heq|Hne].
    + injection Heq as -> ->.
      destruct (apply_condition c changes); [|done].
      by rewrite times_cons, decide_True.
    + destruct (apply_condition c0 changes) eqn:Hc0.
      * rewrite times_cons, decide_False by congruence. done.
      * done.
  - intros other Hother. apply times_absent. unfold condition_calls.
    intros ([c0 l0] & Hin & _)%list_elem_of_bind.
    apply elem_of_cons in Hin as [Heq|Hin]; [congruence|].
    destruct (apply_condition (c0, l0).1 changes).
    + apply list_elem_of_singleton in Hin. discriminate.
    + by apply elem_of_nil in Hin.
  - apply filter_Forall_not. eapply Forall_impl; [exact Hc|]. class_cases.
  - apply filter_Forall_not. eapply Forall_impl; [exact Hc|]. class_cases.
Qed.

(** X11. After [addConditionListener(condition, listener)],
    [emitCondition(changes)] makes the calls it made before and then
    evaluates [condition] on [changes], calling [listener] when it returns
    true; registering makes no call and leaves the map and the other
    registries as they are. *)
Theorem addConditionListener_then_emitCondition (this : ConfigInstance)
    (condition : CoditionListener) (listener : AnyListener) :
  let r := addConditionListener condition listener this in
  completion r = Normal () ∧ calls r = []
  ∧ (∀ changes,
        calls (emitCondition apply_condition changes (final r))
        = calls (emitCondition apply_condition changes this)
            ++ CallCondition condition changes
               :: (if apply_condition condition changes
                   then [CallConditionListener condition listener] else []))
  ∧ config (final r) = config this
  ∧ listeners (final r) = listeners this
  ∧ anyListeners (final r) = anyListeners this.
Proof.
  intros r. subst r. unfold addConditionListener, write.
  unfold completion, final, calls. cbn [fst snd].
  split_and!; try done.
  intros changes. rewrite !emitCondition_run. cbn [snd].
  cbn [conditionListeners with_conditionListeners].
  unfold condition_calls. rewrite bind_app, bind_cons.
  f_equal. apply app_nil_r.
Qed.

(** X12. [removeConditionListener(condition, listener)] removes the pair
    [[condition, listener]]: afterwards that pair is not registered, the
    pairs that remain were registered before and keep their order, removing
    again changes nothing, no call is made, and the map and the other
    registries are unchanged. *)
Theorem removeConditionListener_removes_pair (this : ConfigInstance)
    (condition : CoditionListener) (listener : AnyListener) :
  let r := removeConditionListener condition listener this in
  completion r = Normal () ∧ calls r = []
  ∧ ((condition, listener) ∉ conditionListeners (final r))
  ∧ conditionListeners (final r) `sublist_of` conditionListeners this
  ∧ removeConditionListener condition listener (final r)
    = (Normal (), final r, [])
  ∧ config (final r) = config this
  ∧ listeners (final r) = listeners this
  ∧ anyListeners (final r) = anyListeners this.
Proof.
  intros r. subst r. unfold removeConditionListener, write.
  unfold completion, final, calls. cbn [fst snd].
  cbn [config listeners anyListeners conditionListeners
       with_conditionListeners].
  split_and!; try done.
  - rewrite list_elem_of_filter. cbn. tauto.
  - apply sublist_filter.
  - do 2 f_equal. unfold with_conditionListeners.
    cbn [config listeners anyListeners conditionListeners]. f_equal.
    rewrite list_filter_filter. apply list_filter_iff. tauto.
Qed.

(** X13. When no registered pair has the predicate [condition] or the
    callback [listener], [removeConditionListener(condition, listener)]
    makes no call and leaves the instance exactly as it was. *)
Theorem removeConditionListener_unrelated (this : ConfigInstance)
    (condition : CoditionListener) (listener : AnyListener) :
  Forall (λ cl, cl.1 ≠ condition ∧ cl.2 ≠ listener)
         (conditionListeners this) →
  removeConditionListener condition listener this = (Normal (), this, []).
Proof.
  intros Hall. unfold removeConditionListener, write.
  rewrite filter_Forall by done. by destruct this.
Qed.

(** ** Order and fixed points of the diff *)

Lemma filter_ext_in {A : Type} (P Q : A → Prop) `{!∀ x, Decision (P x)}
    `{!∀ x, Decision (Q x)} (l : list A) :
  (∀ x, x ∈ l → P x ↔ Q x) → filter P l = filter Q l.
Proof.
  induction l as [|x rest IH]; intros Hext; [done|].
  rewrite !filter_cons.
  rewrite IH by (intros y Hy; apply Hext; by apply list_elem_of_further).
  pose proof (Hext x (list_elem_of_here _ _)) as Hx.
  destruct (decide (P x)), (decide (Q x)); tauto.
Qed.

(** The diff is written with reads of own properties.  On the keys of the
    union, the reads [newConfig[key]] and [oldConfig[key]] of the source,
    which fall back to inherited members, compare in the same way: one side
    at least is an own primitive, and an inherited member differs from it
    just as [undefined] does. *)
Lemma js_strict_eq_reads (newConfig oldConfig : ConfigObject) (key : string) :
  key ∈ Object_keys newConfig ∨ key ∈ Object_keys oldConfig →
  js_strict_eq (prop_read newConfig key) (prop_read oldConfig key)
  = strict_eq (prop_get newConfig key) (prop_get oldConfig key).
Proof.
  intros Hkey. unfold prop_read.
  destruct (prop_get newConfig key) as [v|] eqn:Hn,
           (prop_get oldConfig key) as [w|] eqn:Ho; cbn.
  - done.
  - by case_decide.
  - by case_decide.
  - apply prop_get_None in Hn, Ho. tauto.
Qed.

Lemma diffs_reads (newConfig oldConfig : ConfigObject) :
  diffs newConfig oldConfig
  = filter (λ key, negb (js_strict_eq (prop_read newConfig key)
                                      (prop_read oldConfig key)))
           (new_Set (Object_keys newConfig ++ Object_keys oldConfig)).
Proof.
  unfold diffs. apply filter_ext_in. intros key Hkey.
  apply elem_of_new_Set, elem_of_app in Hkey.
  unfold strict_neq. by rewrite js_strict_eq_reads.
Qed.

Lemma Set_add_all_app (seen l1 l2 : list string) :
  Set_add_all seen (l1 ++ l2) = Set_add_all (Set_add_all seen l1) l2.
Proof.
  revert seen. induction l1 as [|x rest IH]; intros seen; [done|].
  cbn [app Set_add_all]. case_decide; apply IH.
Qed.

Lemma Set_add_all_NoDup (seen l : list string) :
  NoDup l → Set_add_all seen l = seen ++ filter (λ x, x ∉ seen) l.
Proof.
  intros Hnd. revert seen.
  induction Hnd as [|x rest Hx Hnd IH]; intros seen; cbn [Set_add_all].
  - by rewrite filter_nil, app_nil_r.
  - case_decide as Hin.
    + rewrite IH, filter_cons_False; [done|]. intros Hc. by apply Hc.
    + rewrite IH, filter_cons_True, <- app_assoc by done. cbn [app].
      do 2 f_equal. apply filter_ext_in. intros y Hy.
      rewrite elem_of_app, list_elem_of_singleton.
      split; [tauto|]. intros Hys [?| ->]; done.
Qed.

Lemma new_Set_two (l1 l2 : list string) :
  NoDup l1 → NoDup l2 →
  new_Set (l1 ++ l2) = l1 ++ filter (λ x, x ∉ l1) l2.
Proof.
  intros H1 H2. unfold new_Set.
  rewrite Set_add_all_app, (Set_add_all_NoDup [] l1) by done.
  rewrite filter_Forall by (apply Forall_forall; intros; apply not_elem_of_nil).
  cbn [app]. by apply Set_add_all_NoDup.
Qed.

Lemma diffs_order_list (newConfig oldConfig : ConfigObject) :
  NoDup (Object_keys newConfig) →
  NoDup (Object_keys oldConfig) →
  diffs newConfig oldConfig
  = filter (λ key, strict_neq (prop_get newConfig key)
                              (prop_get oldConfig key))
           (Object_keys newConfig)
      ++ filter (λ key, key ∉ Object_keys newConfig)
                (Object_keys oldConfig).
Proof.
  intros Hn Ho. unfold diffs. rewrite new_Set_two, filter_app by done.
  f_equal. rewrite list_filter_filter. apply filter_ext_in.
  intros key Hkey. split; [tauto|]. intros Hnew. split; [|done].
  apply prop_get_None in Hnew.
  destruct (proj2 (prop_get_is_Some _ _) Hkey) as [v Hv].
  by rewrite Hnew, Hv.
Qed.

(** X14. For objects with unique keys, the batch lists first the keys of the
    new map whose value differs from the old map's (modified or added), in
    the key order of the new map, and then the keys that only the old map
    owns (removed), in the key order of the old map.  When none of these
    keys names a member of [Object.prototype], this is the order in which
    the event-driven handler calls the KeyListeners: key by key, the
    registry entries of each key in registration order. *)
Theorem diffs_order (newConfig : ConfigObject) (this : ConfigInstance)
    (other : gmap string StorageChange) (old : option ConfigObject) :
  NoDup (Object_keys newConfig) →
  NoDup (Object_keys (config this)) →
  let order :=
    filter (λ key, strict_neq (prop_get newConfig key)
                              (prop_get (config this) key))
           (Object_keys newConfig)
      ++ filter (λ key, key ∉ Object_keys newConfig)
                (Object_keys (config this)) in
  diffs newConfig (config this) = order
  ∧ (Forall (λ key, key ∉ Object_prototype_names) order →
       filter is_listener_call
         (calls (onChanged apply_condition
                   (<["config" := mkStorageChange old (Some newConfig)]> other)
                   this))
       = order ≫= λ key,
           (λ l, CallListener l key (prop_read newConfig key))
             <$> default [] (listeners this !! key)).
Proof.
  intros Hn Ho order.
  pose proof (diffs_order_list newConfig (config this) Hn Ho) as Horder.
  fold order in Horder. split; [exact Horder|].
  intros Hall. rewrite <- Horder in Hall |- *.
  rewrite onChanged_new_map_ok by done. unfold calls. cbn [snd].
  rewrite !filter_app, filter_Forall by apply Forall_key_calls.
  rewrite !filter_Forall_not, !app_nil_r; [done | |].
  - eapply Forall_impl; [apply Forall_condition_calls|]. class_cases.
  - eapply Forall_impl; [apply Forall_any_calls|]. class_cases.
Qed.

Lemma SFeqb_refl (x : spec_float) : SFeqb x x = true ↔ x ≠ S754_nan.
Proof.
  unfold SFeqb, SFcompare. destruct x as [[]|[]| |[] m e]; try done.
  - change (Pos.compare_cont Eq m m) with (Pos.compare m m).
    by rewrite Z.compare_refl, Pos.compare_refl.
  - change (Pos.compare_cont Eq m m) with (Pos.compare m m).
    by rewrite Z.compare_refl, Pos.compare_refl.
Qed.

Lemma strict_neq_same (v : Value) :
  strict_neq v v = true ↔ v = Some (CNumber S754_nan).
Proof.
  unfold strict_neq. rewrite negb_true_iff.
  destruct v as [[s|b|n]|]; cbn.
  - rewrite bool_decide_eq_false. split; [done | discriminate].
  - rewrite bool_decide_eq_false. split; [done | discriminate].
  - rewrite <- not_true_iff_false, SFeqb_refl.
    destruct (decide (n = S754_nan)) as [->|Hne]; [tauto|].
    split; [tauto | congruence].
  - split; discriminate.
Qed.

Lemma diffs_self_aux (m : ConfigObject) :
  (∀ key, key ∈ diffs m m ↔ prop_get m key = Some (CNumber S754_nan))
  ∧ (diffs m m = [] → NaN_free m)
  ∧ (NaN_free m → diffs m m = []).
Proof.
  assert (∀ key, key ∈ diffs m m ↔ prop_get m key = Some (CNumber S754_nan))
    as Hiff.
  { intros key. rewrite elem_of_diffs, strict_neq_same. split; [tauto|].
    intros Hnan. split; [|done]. left. apply prop_get_is_Some. by eexists. }
  split_and!; [exact Hiff | |].
  - intros Hnil key Hnan. apply Hiff in Hnan. rewrite Hnil in Hnan.
    by apply elem_of_nil in Hnan.
  - intros Hfree. apply elem_of_nil_inv. intros key Hkey%Hiff.
    by apply (Hfree key).
Qed.

(** X15. Diffing a map against itself yields exactly the keys whose value
    is [NaN] (the one value that is not strictly equal to itself); so the
    batch is empty if and only if no value of the map is [NaN]. *)
Theorem diffs_self (m : ConfigObject) :
  (∀ key, key ∈ diffs m m ↔ prop_get m key = Some (CNumber S754_nan))
  ∧ (diffs m m = [] ↔ NaN_free m).
Proof.
  destruct (diffs_self_aux m) as (Hiff & Hto & Hfrom).
  split; [exact Hiff|]. by split.
Qed.

(** X16. Polling settles: after a tick of either polled handler on a
    snapshot without [NaN], every key of the store is strictly equal to the
    snapshot's, and a further tick on the same snapshot makes no call and
    changes nothing. *)
Theorem polled_tick_settles (fetched : ConfigObject) (this : ConfigInstance) :
  NaN_free fetched →
  let this1 := final (syncConfig_tick apply_condition fetched this) in
  let this2 := final (syncConfigBackground_tick apply_condition fetched this) in
  (∀ key, strict_eq (prop_get (config this1) key) (prop_get fetched key)
          = true)
  ∧ syncConfig_tick apply_condition fetched this1 = (Normal (), this1, [])
  ∧ (∀ key, strict_eq (prop_get (config this2) key) (prop_get fetched key)
            = true)
  ∧ syncConfigBackground_tick apply_condition fetched this2
    = (Normal (), this2, []).
Proof.
  intros Hfree this1 this2. subst this1 this2.
  pose proof (proj2 (proj2 (diffs_self_aux fetched)) Hfree) as Hself.
  assert (∀ key, diffs fetched (config this) = [] →
            strict_eq (prop_get (config this) key) (prop_get fetched key)
            = true) as Hagree.
  { intros key Hnil. rewrite strict_eq_sym.
    destruct (strict_eq (prop_get fetched key) (prop_get (config this) key))
      eqn:Heq; [done|].
    assert (key ∈ diffs fetched (config this)) as Hin.
    { apply elem_of_diffs. unfold strict_neq. rewrite Heq. split; [|done].
      destruct (prop_get fetched key) as [v|] eqn:Hf.
      - left. apply prop_get_is_Some. by eexists.
      - destruct (prop_get (config this) key) as [v|] eqn:Ht; [|done].
        right. apply prop_get_is_Some. by eexists. }
    rewrite Hnil in Hin. by apply elem_of_nil in Hin. }
  assert (∀ key, strict_eq (prop_get fetched key) (prop_get fetched key)
                 = true) as Hrefl.
  { intros key.
    destruct (strict_eq (prop_get fetched key) (prop_get fetched key))
      eqn:Heq; [done|].
    exfalso. apply (Hfree key), strict_neq_same. unfold strict_neq.
    by rewrite Heq. }
  rewrite !syncConfig_tick_run, !syncConfigBackground_tick_run.
  destruct (decide (diffs fetched (config this) = [])) as [Hd|Hd];
    unfold final; cbn [fst snd].
  - rewrite !decide_True by done. split_and!; auto.
  - cbn [config with_config]. rewrite !decide_True by done.
    split_and!; auto.
Qed.

(** ** What the handlers hand to predicates and listeners *)

Lemma emitCondition_times (changes : list string) (this : ConfigInstance)
    (c : CoditionListener) :
  times (CallCondition c changes)
    (calls (emitCondition apply_condition changes this))
  = length (filter (λ cl, cl.1 = c) (conditionListeners this)).
Proof.
  rewrite emitCondition_run. unfold calls. cbn [snd].
  unfold condition_calls.
  induction (conditionListeners this) as [|[c0 l0] rest IH]; [done|].
  rewrite bind_cons, filter_cons. cbn [fst snd app].
  rewrite times_cons, times_app, IH.
  assert (times (CallCondition c changes)
            (if apply_condition c0 changes
             then [CallConditionListener c0 l0] else []) = 0) as ->.
  { by destruct (apply_condition c0 changes). }
  repeat case_decide; simpl; congruence.
Qed.

Lemma condition_calls_batch (batch : list string)
    (ls : list (CoditionListener * AnyListener)) (c : CoditionListener)
    (changes : list string) :
  CallCondition c changes ∈ condition_calls apply_condition batch ls →
  changes = batch.
Proof.
  unfold condition_calls. intros ([c0 l0] & Hin & _)%list_elem_of_bind.
  apply elem_of_cons in Hin as [Heq|Hin]; [congruence|].
  destruct (apply_condition (c0, l0).1 batch).
  - apply list_elem_of_singleton in Hin. discriminate.
  - by apply elem_of_nil in Hin.
Qed.

Lemma CallCondition_not_any (ls : list AnyListener) (c : CoditionListener)
    (changes : list string) :
  CallCondition c changes ∉ CallAnyListener <$> ls.
Proof. intros (l & Heq & _)%list_elem_of_fmap. discriminate. Qed.

Lemma CallCondition_not_listener (tr : list Call) (c : CoditionListener)
    (changes : list string) :
  Forall is_listener_call tr → CallCondition c changes ∉ tr.
Proof.
  intros Hall Hin. by apply (proj1 (Forall_forall _ _) Hall) in Hin.
Qed.

(** X17. Every predicate evaluated during a synchronisation cycle is handed
    the whole batch of that cycle.  In a polled cycle that batch is never
    empty.  In an event-driven cycle whose batch holds no key naming a
    member of [Object.prototype], each predicate is evaluated once per
    registered pair, also when the batch is empty. *)
Theorem predicates_receive_batch (this : ConfigInstance)
    (c : CoditionListener) (changes : list string) :
  (∀ other old newConfig,
      CallCondition c changes
        ∈ calls (onChanged apply_condition
                   (<["config" := mkStorageChange old (Some newConfig)]> other)
                   this) →
      changes = diffs newConfig (config this))
  ∧ (∀ other old newConfig,
        Forall (λ k, k ∉ Object_prototype_names)
               (diffs newConfig (config this)) →
        times (CallCondition c (diffs newConfig (config this)))
          (calls (onChanged apply_condition
                    (<["config" := mkStorageChange old (Some newConfig)]>
                       other)
                    this))
        = length (filter (λ cl, cl.1 = c) (conditionListeners this)))
  ∧ (∀ fetched,
        CallCondition c changes
          ∈ calls (syncConfig_tick apply_condition fetched this) →
        changes = diffs fetched (config this) ∧ changes ≠ [])
  ∧ (∀ fetched,
        CallCondition c changes
          ∈ calls (syncConfigBackground_tick apply_condition fetched this) →
        changes = diffs fetched (config this) ∧ changes ≠ []).
Proof.
  split_and!.
  - intros other old newConfig. rewrite onChanged_new_map_run.
    pose proof (Forall_emit_each_calls (listeners this)
                  (diffs newConfig (config this)) (prop_read newConfig))
      as Hk.
    case_decide; unfold calls; cbn [snd].
    + rewrite !elem_of_app. intros [Hin|[Hin|Hin]].
      * by apply CallCondition_not_listener in Hin.
      * by apply CallCondition_not_any in Hin.
      * by apply condition_calls_batch in Hin.
    + intros Hin. by apply CallCondition_not_listener in Hin.
  - intros other old newConfig Hall. rewrite onChanged_new_map_ok by done.
    unfold calls. cbn [snd]. rewrite !times_app.
    rewrite (times_absent _ (_ ≫= _)), (times_absent _ (_ <$> _)).
    + pose proof (emitCondition_run apply_condition
                    (diffs newConfig (config this)) this) as Hrun.
      pose proof (emitCondition_times (diffs newConfig (config this))
                    this c) as Htimes.
      rewrite Hrun in Htimes. exact Htimes.
    + apply CallCondition_not_any.
    + apply CallCondition_not_listener, Forall_key_calls.
  - intros fetched. rewrite syncConfig_tick_run.
    destruct (decide (diffs fetched (config this) = [])) as [Hd|Hd];
      unfold calls; cbn [snd].
    { intros Hin. by apply elem_of_nil in Hin. }
    rewrite !elem_of_app. intros [Hin|[Hin|Hin]].
    + apply condition_calls_batch in Hin. by subst.
    + by apply CallCondition_not_any in Hin.
    + apply list_elem_of_singleton in Hin. discriminate.
  - intros fetched. rewrite syncConfigBackground_tick_run.
    destruct (decide (diffs fetched (config this) = [])) as [Hd|Hd];
      unfold calls; cbn [snd].
    { intros Hin. by apply elem_of_nil in Hin. }
    rewrite !elem_of_app. intros [Hin|[Hin|Hin]].
    + apply condition_calls_batch in Hin. by subst.
    + by apply CallCondition_not_any in Hin.
    + apply list_elem_of_singleton in Hin. discriminate.
Qed.

(** X18. A local write reaches another context.  Let [key] name no member
    of [Object.prototype].  When the map an instance holds after
    [set(key, value)] arrives at a second instance as the new value of a
    notification, and the batch at the second instance holds no key naming
    a member of [Object.prototype], then the second instance ends up
    holding that map, reads [value] at [key], and calls its KeyListeners of
    [key], once per registry entry and with [value], exactly when [value] is
    strictly different from what it held for [key] before. *)
Theorem set_propagates (sender receiver : ConfigInstance) (key : string)
    (value : ConfigData) (other : gmap string StorageChange)
    (old : option ConfigObject) :
  key ∉ Object_prototype_names →
  Forall (λ k, k ∉ Object_prototype_names)
         (diffs (config (final (set key value sender))) (config receiver)) →
  let newConfig := config (final (set key value sender)) in
  let r := onChanged apply_condition
             (<["config" := mkStorageChange old (Some newConfig)]> other)
             receiver in
  completion r = Normal ()
  ∧ config (final r) = newConfig
  ∧ (∀ d, completion (get key d (final r)) = Normal (JSData value))
  ∧ filter (is_listener_call_for key) (calls r)
    = (if strict_neq (Some value) (prop_get (config receiver) key)
       then (λ l, CallListener l key (JSData value))
              <$> default [] (listeners receiver !! key)
       else [])
  ∧ listeners (final r) = listeners receiver
  ∧ anyListeners (final r) = anyListeners receiver
  ∧ conditionListeners (final r) = conditionListeners receiver.
Proof.
  intros Hkey Hall newConfig r.
  assert (prop_get newConfig key = Some value) as Hget.
  { subst newConfig. rewrite set_final. unfold with_config.
    cbn [config]. apply prop_get_set_eq. right. intros ->.
    apply Hkey. apply (bool_decide_unpack _). vm_compute. exact I. }
  subst r. fold newConfig in Hall. rewrite onChanged_new_map_ok by done.
  unfold completion, final, calls. cbn [fst snd].
  split_and!; try done.
  - intros d. rewrite get_run. cbn [fst config with_config].
    by rewrite (prop_read_own _ _ _ Hget).
  - rewrite !filter_app, filter_key_calls by apply NoDup_diffs.
    rewrite !filter_Forall_not, !app_nil_r.
    2:{ eapply Forall_impl; [apply Forall_condition_calls|]. class_cases. }
    2:{ eapply Forall_impl; [apply Forall_any_calls|]. class_cases. }
    rewrite (prop_read_own _ _ _ Hget).
    destruct (strict_neq (Some value) (prop_get (config receiver) key))
      eqn:Hneq.
    + rewrite decide_True; [done|]. apply elem_of_diffs.
      rewrite Hget. split; [|done]. left. apply prop_get_is_Some.
      by eexists.
    + rewrite decide_False; [done|]. rewrite elem_of_diffs, Hget, Hneq.
      intros [_ ?]. discriminate.
Qed.

(** ** [get] and [set] on ordinary keys *)

(** X20. For a key that names no member of [Object.prototype]:
    [set(key, value)] completes normally; afterwards [get(key)] returns
    [value] whatever default is passed; the calls it makes are exactly one
    call [l(key, value)] per entry of the registry of [key], followed by one
    call per entry of the AnyListener registry; no predicate or callback of
    a ConditionalListener is called. *)
Theorem set_then_get (this : ConfigInstance) (key : string)
    (value : ConfigData) :
  key ∉ Object_prototype_names →
  let r := set key value this in
  completion r = Normal ()
  ∧ (∀ d, get key d (final r) = (Normal (JSData value), final r, []))
  ∧ calls r
    = ((λ l, CallListener l key (JSData value))
         <$> default [] (listeners this !! key))
        ++ (CallAnyListener <$> anyListeners this)
  ∧ (∀ l, times (CallListener l key (JSData value)) (calls r)
          = times l (default [] (listeners this !! key)))
  ∧ (∀ l k v, (k, v) ≠ (key, JSData value) →
              times (CallListener l k v) (calls r) = 0)
  ∧ (∀ l, times (CallAnyListener l) (calls r) = times l (anyListeners this))
  ∧ filter is_condition_call (calls r) = [].
Proof.
  intros Hkey r. subst r.
  pose proof (set_any_calls key value this (not_emit_throws _ _ Hkey))
    as Hany.
  rewrite set_run, decide_False in Hany |- * by (by apply not_emit_throws).
  unfold completion, final, calls in Hany |- *.
  cbn [fst snd] in Hany |- *.
  assert (Forall is_listener_call
            (listener_calls (listeners this) key (JSData value))) as Hl.
  { eapply Forall_impl; [apply Forall_listener_calls|]. by intros []. }
  pose proof (Forall_any_calls (anyListeners this)) as Ha.
  split_and!.
  - done.
  - intros d. rewrite get_run. unfold with_config. cbn [config].
    rewrite (prop_read_own _ _ value); [done|].
    apply prop_get_set_eq. right. intros ->.
    apply Hkey. apply (bool_decide_unpack _). vm_compute. exact I.
  - done.
  - intros l. rewrite times_app. unfold listener_calls.
    rewrite (times_fmap_inj (λ l, CallListener l key (JSData value)))
      by apply CallListener_inj.
    rewrite (times_absent (CallListener l key (JSData value))); [lia|].
    intros (l' & Heq & _)%list_elem_of_fmap. discriminate.
  - intros l k v Hkv. apply times_absent.
    rewrite elem_of_app. unfold listener_calls.
    intros [(l' & Heq & _)%list_elem_of_fmap|(l' & Heq & _)%list_elem_of_fmap];
      congruence.
  - intros l. apply times_any_call, Hany.
  - rewrite filter_app, !filter_Forall_not; [done | |].
    + eapply Forall_impl; [exact Ha|]. class_cases.
    + eapply Forall_impl; [exact Hl|]. class_cases.
Qed.

(** X21. For a key that the current map does not own and that names no
    member of [Object.prototype], [get(key, d)] returns [d] for every
    default [d], and [get(key)] returns [undefined].  For every key, [get]
    completes normally, makes no call and leaves the instance as it is. *)
Theorem get_absent_key (this : ConfigInstance) (key : string) :
  key ∉ Object_keys (config this) →
  key ∉ Object_prototype_names →
  (∀ d, get key d this = (Normal d, this, []))
  ∧ get key JSUndefined this = (Normal JSUndefined, this, [])
  ∧ (∀ key' defaultValue, ∃ v,
        get key' defaultValue this = (Normal v, this, [])).
Proof.
  intros Hkey Hname. split_and!.
  - intros d. by rewrite get_run, prop_read_absent.
  - by rewrite get_run, prop_read_absent.
  - intros key' d. rewrite get_run. eauto.
Qed.

End Store.

(** * Concrete runs of the further properties *)

(** ["x"] names no member of [Object.prototype]. *)
Lemma addListener_then_emit_witness :
  ("x" ∉ Object_prototype_names)
  ∧ emit "x" JSUndefined (final (addListener "x" 9 ex_this))
    = (Normal (), final (addListener "x" 9 ex_this),
       [CallListener 1 "x" JSUndefined; CallListener 2 "x" JSUndefined;
        CallListener 9 "x" JSUndefined]).
Proof.
  assert ("x" ∉ Object_prototype_names) as Hx.
  { apply (bool_decide_unpack _). vm_compute. exact I. }
  split; [exact Hx|].
  destruct (addListener_then_emit ex_this "x" 9 Hx) as (_ & _ & Hemit & _).
  exact (Hemit JSUndefined).
Defined.

Lemma removeListener_then_emit_witness :
  ("x" ∉ Object_prototype_names)
  ∧ emit "x" JSUndefined (final (removeListener "x" 1 ex_this))
    = (Normal (), final (removeListener "x" 1 ex_this),
       [CallListener 2 "x" JSUndefined]).
Proof.
  assert ("x" ∉ Object_prototype_names) as Hx.
  { apply (bool_decide_unpack _). vm_compute. exact I. }
  split; [exact Hx|].
  destruct (removeListener_then_emit ex_this "x" 1 Hx)
    as (_ & _ & Hemit & _).
  exact (Hemit JSUndefined).
Defined.

(** Listener 9 is not registered for ["x"] on [ex_this]. *)
Lemma add_remove_listener_witness :
  ("x" ∉ Object_prototype_names)
  ∧ (9 ∉ default [] (listeners ex_this !! "x"))
  ∧ final (removeListener "x" 9 (final (addListener "x" 9 ex_this)))
    = ex_this.
Proof.
  assert ("x" ∉ Object_prototype_names) as Hx.
  { apply (bool_decide_unpack _). vm_compute. exact I. }
  assert (9 ∉ default [] (listeners ex_this !! "x")) as Hl.
  { apply (bool_decide_unpack _). vm_compute. exact I. }
  split; [exact Hx|]. split; [exact Hl|].
  destruct (add_remove_listener ex_this "x" 9 Hx Hl) as (_ & Hsame & _).
  apply Hsame. vm_compute. eauto.
Defined.

(** AnyListener 9 is not registered on [ex_this]. *)
Lemma add_remove_any_listener_witness :
  (9 ∉ anyListeners ex_this)
  ∧ calls (emitAny (final (addAnyListener 9 ex_this)))
    = [CallAnyListener 7; CallAnyListener 8; CallAnyListener 9]
  ∧ final (removeAnyListener 9 (final (addAnyListener 9 ex_this))) = ex_this.
Proof.
  assert (9 ∉ anyListeners ex_this) as Hl.
  { apply (bool_decide_unpack _). vm_compute. exact I. }
  split; [exact Hl|].
  destruct (add_remove_any_listener ex_this 9) as (Hemit & _ & Hback).
  split; [exact Hemit | exact (Hback Hl)].
Defined.

(** Neither predicate 20 nor callback 21 occurs in a pair of [ex_this]. *)
Lemma removeConditionListener_unrelated_witness :
  Forall (λ cl, cl.1 ≠ 20 ∧ cl.2 ≠ 21) (conditionListeners ex_this)
  ∧ removeConditionListener 20 21 ex_this = (Normal (), ex_this, []).
Proof.
  assert (Forall (λ cl : CoditionListener * AnyListener,
                    cl.1 ≠ 20 ∧ cl.2 ≠ 21)
                 (conditionListeners ex_this)) as Hall.
  { apply (bool_decide_unpack _). vm_compute. exact I. }
  split; [exact Hall|].
  exact (removeConditionListener_unrelated ex_this 20 21 Hall).
Defined.

(** From [{p, q, r}] to [{s, r, p}]: [s] is added and [r] modified (in the
    new map's order), [p] is unchanged, and [q] is removed; the KeyListeners
    are called in that order. *)
Lemma diffs_order_witness :
  NoDup (Object_keys ex_after) ∧ NoDup (Object_keys (config ex_ordered))
  ∧ diffs ex_after (config ex_ordered) = ["s"; "r"; "q"]
  ∧ filter is_listener_call
      (calls (onChanged ex_condition
                (<["config" := mkStorageChange None (Some ex_after)]> ∅)
                ex_ordered))
    = [CallListener 5 "s" (JSData (CBoolean true));
       CallListener 6 "s" (JSData (CBoolean true));
       CallListener 3 "r" (JSData (CBoolean true));
       CallListener 4 "q" JSUndefined].
Proof.
  assert (NoDup (Object_keys ex_after)) as Hn.
  { apply (bool_decide_unpack _). vm_compute. exact I. }
  assert (NoDup (Object_keys (config ex_ordered))) as Ho.
  { apply (bool_decide_unpack _). vm_compute. exact I. }
  split; [exact Hn|]. split; [exact Ho|].
  destruct (diffs_order ex_condition ex_after ex_ordered ∅ None Hn Ho)
    as [Horder Hcalls].
  split.
  - rewrite Horder. vm_compute. reflexivity.
  - rewrite Hcalls.
    + vm_compute. reflexivity.
    + apply (bool_decide_unpack _). vm_compute. exact I.
Defined.

(** [set("0", ...)] and [set("c", ...)] on [{1: true, b: true}]: the index
    key goes first, the name goes last. *)
Lemma set_index_key_order :
  Object_keys (config (final (set "0" (CBoolean false)
                                (with_config ex_indexed ex_this))))
  = ["0"; "1"; "b"]
  ∧ Object_keys (config (final (set "2" (CBoolean false)
                                  (with_config ex_indexed ex_this))))
    = ["1"; "2"; "b"]
  ∧ Object_keys (config (final (set "c" (CBoolean false)
                                  (with_config ex_indexed ex_this))))
    = ["1"; "b"; "c"]
  ∧ Object_keys (config (final (set "01" (CBoolean false)
                                  (with_config ex_indexed ex_this))))
    = ["1"; "b"; "01"].
Proof. split_and!; vm_compute; reflexivity. Qed.

(** [set("x", false)] on [ex_this], then the resulting map arriving at
    [ex_ordered]. *)
Lemma set_propagates_witness :
  ("x" ∉ Object_prototype_names)
  ∧ Forall (λ k, k ∉ Object_prototype_names)
      (diffs (config (final (set "x" (CBoolean false) ex_this)))
             (config ex_ordered))
  ∧ ∀ d,
      completion
        (get "x" d
           (final (onChanged ex_condition
                     (<["config" :=
                          mkStorageChange None
                            (Some (config (final (set "x" (CBoolean false)
                                                    ex_this))))]> ∅)
                     ex_ordered)))
      = Normal (JSData (CBoolean false)).
Proof.
  assert ("x" ∉ Object_prototype_names) as Hx.
  { apply (bool_decide_unpack _). vm_compute. exact I. }
  assert (Forall (λ k, k ∉ Object_prototype_names)
            (diffs (config (final (set "x" (CBoolean false) ex_this)))
                   (config ex_ordered))) as Hall.
  { apply (bool_decide_unpack _). vm_compute. exact I. }
  split; [exact Hx|]. split; [exact Hall|].
  destruct (set_propagates ex_condition ex_this ex_ordered "x"
              (CBoolean false) ∅ None Hx Hall) as (_ & _ & Hget & _).
  exact Hget.
Defined.

(** [set("x", false)] on [ex_this]. *)
Lemma set_then_get_witness :
  ("x" ∉ Object_prototype_names)
  ∧ calls (set "x" (CBoolean false) ex_this)
    = [CallListener 1 "x" (JSData (CBoolean false));
       CallListener 2 "x" (JSData (CBoolean false));
       CallAnyListener 7; CallAnyListener 8].
Proof.
  assert ("x" ∉ Object_prototype_names) as Hx.
  { apply (bool_decide_unpack _). vm_compute. exact I. }
  split; [exact Hx|].
  destruct (set_then_get ex_this "x" (CBoolean false) Hx)
    as (_ & _ & Hcalls & _).
  rewrite Hcalls. vm_compute. reflexivity.
Defined.

(** The absent key ["missing"] on [ex_this]. *)
Lemma get_absent_key_witness :
  ("missing" ∉ Object_keys (config ex_this))
  ∧ ("missing" ∉ Object_prototype_names)
  ∧ get "missing" (JSData (CString "d")) ex_this
    = (Normal (JSData (CString "d")), ex_this, [])
  ∧ get "missing" JSUndefined ex_this = (Normal JSUndefined, ex_this, []).
Proof.
  assert ("missing" ∉ Object_keys (config ex_this)) as Habsent.
  { apply (bool_decide_unpack _). vm_compute. exact I. }
  assert ("missing" ∉ Object_prototype_names) as Hname.
  { apply (bool_decide_unpack _). vm_compute. exact I. }
  destruct (get_absent_key ex_this "missing" Habsent Hname)
    as (Hd & Hn & _).
  split; [exact Habsent|]. split; [exact Hname|].
  split; [apply Hd | exact Hn].
Defined.

(** Two ticks on [ex_fetched], which holds no [NaN]. *)
Lemma polled_tick_settles_witness :
  NaN_free ex_fetched
  ∧ syncConfig_tick ex_condition ex_fetched
      (final (syncConfig_tick ex_condition ex_fetched ex_this))
    = (Normal (), final (syncConfig_tick ex_condition ex_fetched ex_this), []).
Proof.
  assert (NaN_free ex_fetched) as Hfree.
  { intros key. unfold ex_fetched. simpl. case_decide; discriminate. }
  split; [exact Hfree|].
  destruct (polled_tick_settles ex_condition ex_fetched ex_this Hfree)
    as (_ & Hquiet & _).
  exact Hquiet.
Defined.
